(** * Postings records, their delimiter-terminated encoding, the postings
    file lookup and the forward-index compress pass of MeTA.

    Shallow embedding of
      - include/index/postings_data.tcc   (postings_data)
      - include/index/postings_file.h     (postings_file)
      - src/index/forward_index.cpp       (forward_index::impl::compress)

    Conventions.  A [uint64_t] is a [Z] in [0, 2^64) and arithmetic on it
    wraps ([wrap64]).  A [double] is Rocq's primitive binary64 [float]; it
    has one NaN, so two doubles that are NaN are equal here whatever their
    payload (a weight of a valid record is finite).  A [std::vector] is a
    [list], indexed with stdpp's lookup [!!]; an index out of range is
    undefined behaviour in C++ and [None] here. *)

From Stdlib Require Import ZArith Lia Bool Floats Strings.String.
From stdpp Require Import base list sorting gmap.

Local Open Scope Z_scope.

(** ** Machine integers *)

Definition uint64_modulus : Z := 2 ^ 64.

Definition wrap64 (z : Z) : Z := z mod uint64_modulus.

Definition is_uint64 (z : Z) : Prop := 0 <= z < uint64_modulus.

(** ** The object representation of a double

    [*reinterpret_cast<uint64_t*>(&d)] reads the eight bytes of the double
    [d] as an integer, and [*reinterpret_cast<double*>(&u)] goes back.  On
    the IEEE-754 binary64 layout: bit 63 is the sign, bits 62..52 the biased
    exponent, bits 51..0 the fraction. *)

Definition sign_bit (s : bool) : Z := if s then 2 ^ 63 else 0.

Definition bits_of_spec (f : spec_float) : Z :=
  match f with
  | S754_zero s => sign_bit s
  | S754_infinity s => sign_bit s + 2047 * 2 ^ 52
  | S754_nan => 2047 * 2 ^ 52 + 2 ^ 51
  | S754_finite s m e =>
      if Z.pos m <? 2 ^ 52 then sign_bit s + Z.pos m
      else sign_bit s + (e + 1075) * 2 ^ 52 + (Z.pos m - 2 ^ 52)
  end.

Definition spec_of_bits (z : Z) : spec_float :=
  let s := 2 ^ 63 <=? z in
  let E := (z / 2 ^ 52) mod 2 ^ 11 in
  let M := z mod 2 ^ 52 in
  if E =? 0 then
    match M with Z.pos m => S754_finite s m (-1074) | _ => S754_zero s end
  else if E =? 2047 then
    (if M =? 0 then S754_infinity s else S754_nan)
  else
    match 2 ^ 52 + M with
    | Z.pos m => S754_finite s m (E - 1075)
    | _ => S754_nan
    end.

Definition double_to_bits (d : float) : Z := bits_of_spec (Prim2SF d).

Definition bits_to_double (z : Z) : float := SF2Prim (spec_of_bits z).

(** ** Postings records (postings_data.tcc) *)

Abbreviation pair_t := (Z * float)%type.

Abbreviation count_t := (list pair_t).

Record postings_data : Type := mk_postings_data {
  _p_id : Z;
  _counts : count_t
}.

(** [postings_data(PrimaryKey p_id)]: a record with no pairs. *)
Definition postings_data_new (p_id : Z) : postings_data :=
  {| _p_id := p_id; _counts := [] |}.

Definition primary_key (r : postings_data) : Z := _p_id r.

Definition counts (r : postings_data) : count_t := _counts r.

(** Invariants 1 and 2 of a record: keys strictly ascending (hence no key
    twice); every key is a 64-bit value. *)
Fixpoint strictly_ascending (l : count_t) : bool :=
  match l with
  | [] => true
  | p :: l' =>
      match l' with
      | [] => true
      | q :: _ => (p.1 <? q.1) && strictly_ascending l'
      end
  end.

Definition keys_in_range (l : count_t) : bool :=
  forallb (fun p : pair_t => (0 <=? p.1) && (p.1 <? uint64_modulus)) l.

(** Invariant 3: every weight is finite and not negative. *)
Definition weight_ok (w : float) : bool :=
  PrimFloat.leb 0%float w && PrimFloat.ltb w infinity.

Definition weights_ok (l : count_t) : bool :=
  forallb (fun p : pair_t => weight_ok p.2) l.

Definition valid_counts (l : count_t) : bool :=
  strictly_ascending l && keys_in_range l && weights_ok l.

Definition valid_record (r : postings_data) : bool :=
  valid_counts (_counts r) && (0 <=? _p_id r) && (_p_id r <? uint64_modulus).

(** ** Serialization: write_compressed and read_compressed

    [io::compressed_file_writer] and [io::compressed_file_reader] are not
    among the source files; they are taken at their interface.  A compressed file is the
    sequence of 64-bit values handed to [writer.write], and [reader.next()]
    hands them back in the same order; reading past the last value is an
    error ([None]). *)

(** One iteration of the gap-encoding loop of [write_compressed], for index
    [i]; the state is the mutable copy of the counts, [cur_id] and the
    values written so far. *)
Definition write_step (i : nat) (st : count_t * Z * list Z)
  : option (count_t * Z * list Z) :=
  let '(mutable_counts, cur_id, writer) := st in
  match mutable_counts !! i with
  | None => None
  | Some p =>
      let temp_id := p.1 in
      let mutable_counts := <[i := (wrap64 (p.1 - cur_id), p.2)]> mutable_counts in
      let cur_id := temp_id in
      match mutable_counts !! i with
      | None => None
      | Some q =>
          Some (mutable_counts, cur_id, writer ++ [q.1; double_to_bits q.2])
      end
  end.

Fixpoint write_loop (idxs : list nat) (st : count_t * Z * list Z)
  : option (count_t * Z * list Z) :=
  match idxs with
  | [] => Some st
  | i :: idxs' =>
      match write_step i st with
      | None => None
      | Some st' => write_loop idxs' st'
      end
  end.

(** [write_compressed]: [delimiter] is the constant [_delimiter] of
    index/postings_data.h, which is not among the source files; it is a
    parameter here.  The result is [None] when the function indexes
    [mutable_counts] out of range. *)
Definition write_compressed (delimiter : Z) (r : postings_data)
    (writer : list Z) : option (list Z) :=
  let mutable_counts := _counts r in
  match mutable_counts !! 0%nat with
  | None => None
  | Some p0 =>
      let writer := writer ++ [p0.1; double_to_bits p0.2] in
      let cur_id := p0.1 in
      match write_loop (seq 1 (length mutable_counts - 1))
                       (mutable_counts, cur_id, writer) with
      | None => None
      | Some (_, _, writer) => Some (writer ++ [delimiter])
      end
  end.

(** The [while(true)] loop of [read_compressed]; every iteration takes at
    least one value from the reader, so the recursion is on the reader. *)
Fixpoint read_loop (delimiter : Z) (reader : list Z) (last_id : Z)
    (acc : count_t) : option (count_t * list Z) :=
  match reader with
  | [] => None
  | this_id :: reader1 =>
      if this_id =? delimiter then Some (acc, reader1)
      else
        let last_id := wrap64 (last_id + this_id) in
        match reader1 with
        | [] => None
        | next :: reader2 =>
            read_loop delimiter reader2 last_id
                      (acc ++ [(last_id, bits_to_double next)])
        end
  end.

(** [read_compressed] clears and refills [_counts]; [_p_id] is untouched. *)
Definition read_compressed (delimiter : Z) (r : postings_data)
    (reader : list Z) : option (postings_data * list Z) :=
  match read_loop delimiter reader 0 [] with
  | None => None
  | Some (c, reader') => Some ({| _p_id := _p_id r; _counts := c |}, reader')
  end.


(** The serialized form in the words of the format description: the first
    key absolute with its weight, then for each later pair the gap from the
    previous key followed by the weight.  A gap is a difference of 64-bit
    values. *)
Fixpoint gap_tokens (prev : Z) (l : count_t) : list Z :=
  match l with
  | [] => []
  | p :: l' => wrap64 (p.1 - prev) :: double_to_bits p.2 :: gap_tokens p.1 l'
  end.

Definition first_absolute_then_gaps (l : count_t) : list Z :=
  match l with
  | [] => []
  | p :: l' => p.1 :: double_to_bits p.2 :: gap_tokens p.1 l'
  end.

(** The same with the gaps as plain differences of integers. *)
Fixpoint key_differences (prev : Z) (l : count_t) : list Z :=
  match l with
  | [] => []
  | p :: l' => (p.1 - prev) :: double_to_bits p.2 :: key_differences p.1 l'
  end.

(** Keys ascending from [prev] on, each a 64-bit value: what the writer
    relies on for a gap not to wrap. *)
Fixpoint ascending_from (prev : Z) (l : count_t) : Prop :=
  match l with
  | [] => True
  | p :: l' => (prev <= p.1 < uint64_modulus) /\ ascending_from p.1 l'
  end.

(** Neither the first key (the gap from 0) nor a gap between two keys in
    a row is the delimiter. *)
Fixpoint gaps_avoid (delimiter prev : Z) (l : count_t) : bool :=
  match l with
  | [] => true
  | p :: l' =>
      negb (wrap64 (p.1 - prev) =? delimiter) && gaps_avoid delimiter p.1 l'
  end.

(** ** Sorting and searching

    [std::sort] with the comparator [a.first < b.first] leaves the vector in
    non-decreasing key order; the order it gives to pairs with equal keys is
    unspecified.  It is modelled by a merge sort on the relation [key_le]. *)

Definition key_le : relation pair_t := fun a b => a.1 <= b.1.

#[global] Instance key_le_dec : RelDecision key_le.
Proof. intros a b. unfold key_le. apply Z_le_dec. Defined.

Definition sort_counts (l : count_t) : count_t := merge_sort key_le l.

(** [std::lower_bound(v.begin() + first, v.begin() + last, s, searcher)]
    with [searcher p s = p.first < s], as the index of the iterator it
    returns.  The loop halves [count] each turn, so [count] turns are
    enough; the position read is always below [first + count].  (The
    [None] branch is reached only with [last] beyond the end of [v].) *)
Fixpoint lower_bound_loop (fuel : nat) (v : count_t) (s : Z)
    (first count : nat) : nat :=
  match fuel with
  | O => first
  | S fuel' =>
      if (count =? 0)%nat then first
      else
        let step := (count / 2)%nat in
        let it := (first + step)%nat in
        match v !! it with
        | None => first
        | Some p =>
            if p.1 <? s
            then lower_bound_loop fuel' v s (S it) (count - S step)
            else lower_bound_loop fuel' v s first step
        end
  end.

Definition lower_bound (v : count_t) (first last : nat) (s : Z) : nat :=
  lower_bound_loop (last - first) v s first (last - first).

(** ** Operations of a record *)

(** [count(s_id)] *)
Definition count (r : postings_data) (s_id : Z) : float :=
  let it := lower_bound (_counts r) 0 (length (_counts r)) s_id in
  if (it =? length (_counts r))%nat then 0%float
  else
    match _counts r !! it with
    | None => 0%float
    | Some p => if negb (p.1 =? s_id) then 0%float else p.2
    end.

(** [set_counts(counts)]: copy, then sort. *)
Definition set_counts (r : postings_data) (counts : count_t) : postings_data :=
  {| _p_id := _p_id r; _counts := sort_counts counts |}.

(** One iteration of the loop of [merge_with], for the pair [p] of
    [other._counts]. *)
Definition merge_step (orig_length : nat) (cs : count_t) (p : pair_t)
  : count_t :=
  let it := lower_bound cs 0 orig_length p.1 in
  if (it =? length cs)%nat then cs ++ [p]
  else
    match cs !! it with
    | None => cs ++ [p]
    | Some q =>
        if negb (q.1 =? p.1) then cs ++ [p]
        else <[it := (q.1, (q.2 + p.2)%float)]> cs
    end.

(** [merge_with(other)], for [other] an object distinct from the
    receiver. *)
Definition merge_with (self other : postings_data) : postings_data :=
  let orig_length := length (_counts self) in
  let cs := foldl (merge_step orig_length) (_counts self) (_counts other) in
  {| _p_id := _p_id self; _counts := sort_counts cs |}.

(** *** merge_with on objects

    [merge_with] takes [other] by reference, so the receiver and the
    argument may be one object.  Objects live in a store indexed by
    address.  The range-for over [other._counts] fixes its end at loop
    entry and reads the pair through the reference at each turn.
    [emplace_back] on the vector that is being iterated invalidates the
    iterators of the loop: undefined, [None]. *)

Abbreviation store := (gmap nat postings_data).

Definition merge_step_at (self other : nat) (orig_length : nat)
    (h : store) (i : nat) : option store :=
  match h !! other with
  | None => None
  | Some o =>
      match _counts o !! i with
      | None => None
      | Some p =>
          match h !! self with
          | None => None
          | Some s =>
              let cs := _counts s in
              let it := lower_bound cs 0 orig_length p.1 in
              let push :=
                if decide (self = other) then None
                else Some (<[self := {| _p_id := _p_id s;
                                        _counts := cs ++ [p] |}]> h) in
              if (it =? length cs)%nat then push
              else
                match cs !! it with
                | None => push
                | Some q =>
                    if negb (q.1 =? p.1) then push
                    else Some (<[self :=
                             {| _p_id := _p_id s;
                                _counts := <[it := (q.1, (q.2 + p.2)%float)]> cs
                             |}]> h)
                end
          end
      end
  end.

Fixpoint merge_loop_at (self other : nat) (orig_length : nat)
    (idxs : list nat) (h : store) : option store :=
  match idxs with
  | [] => Some h
  | i :: idxs' =>
      match merge_step_at self other orig_length h i with
      | None => None
      | Some h' => merge_loop_at self other orig_length idxs' h'
      end
  end.

Definition merge_with_at (h : store) (self other : nat) : option store :=
  match h !! self, h !! other with
  | Some s, Some o =>
      let orig_length := length (_counts s) in
      match merge_loop_at self other orig_length
                          (seq 0 (length (_counts o))) h with
      | None => None
      | Some h' =>
          match h' !! self with
          | None => None
          | Some s' =>
              Some (<[self := {| _p_id := _p_id s';
                                 _counts := sort_counts (_counts s') |}]> h')
          end
      end
  | _, _ => None
  end.

(** *** Reading a record as a finite map from keys to weights *)

Fixpoint assoc (k : Z) (l : count_t) : option float :=
  match l with
  | [] => None
  | p :: l' => if p.1 =? k then Some p.2 else assoc k l'
  end.

Definition keys (l : count_t) : list Z := map fst l.

(** The weight of a key in a union: the sum where both sides hold it. *)
Definition sum_opt (x y : option float) : option float :=
  match x, y with
  | Some u, Some v => Some (u + v)%float
  | Some u, None => Some u
  | None, y => y
  end.

(** For every key held by [a], [b] and [c], adding its three weights gives
    the same double in either grouping. *)
Definition weights_associate (a b c : count_t) : bool :=
  forallb (fun p : pair_t =>
             match assoc p.1 b, assoc p.1 c with
             | Some y, Some z =>
                 PrimFloat.Leibniz.eqb ((p.2 + y) + z)%float (p.2 + (y + z))%float
             | _, _ => true
             end) a.

(** What holds of [_counts] in the loop of [merge_with] once the pairs
    [done] of [other] are processed, [orig] being the counts at entry: the
    first [length orig] pairs still have the keys of [orig], the pairs after
    them were taken from [done], no key is held twice, and every key has the
    weight of the union of [orig] and [done]. *)
Definition merge_inv (orig done cs : count_t) : Prop :=
  (length orig <= length cs)%nat /\
  keys (take (length orig) cs) = keys orig /\
  (forall q : pair_t, q ∈ drop (length orig) cs -> q.1 ∈ keys done) /\
  NoDup (keys cs) /\
  (forall k : Z, assoc k cs = sum_opt (assoc k orig) (assoc k done)).

(** ** The postings file (postings_file.h)

    [postings_] is the mapped data file and [byte_locations_] the offset
    table.  Every function returns, next to its result, the accesses it
    made, so that what a lookup reads can be stated. *)

Inductive access : Type :=
  | IndexSize                (* byte_locations_.size() *)
  | IndexAt (k : Z)          (* byte_locations_.at(k) *)
  | PostingsByte (pos : Z).  (* one byte of the mapped data file *)

Definition is_postings_byte (a : access) : bool :=
  match a with PostingsByte _ => true | _ => false end.

Record postings_file : Type := mk_postings_file {
  postings_ : list Z;
  byte_locations_ : list Z
}.

(** Modelled from the spec: [postings_stream] is declared in
    index/postings_stream.h, which is not among the source files.
    [find_stream] builds it from the mapping and a start offset; per the
    format description it is a lazy decoder that borrows the mapped file,
    a value holding these two. *)
Record postings_stream : Type := mk_postings_stream {
  stream_postings : list Z;
  stream_start : Z
}.

(** [find_stream(pk)] *)
Definition find_stream (pf : postings_file) (pk : Z)
  : option postings_stream * list access :=
  if pk <? Z.of_nat (length (byte_locations_ pf)) then
    match byte_locations_ pf !! Z.to_nat pk with
    | None => (None, [IndexSize; IndexAt pk])
    | Some off =>
        (Some {| stream_postings := postings_ pf; stream_start := off |},
         [IndexSize; IndexAt pk])
    end
  else (None, [IndexSize]).

Section Find.

(** The pairs a stream yields between [begin()] and [end()], with the
    accesses of the decoding; the decoder is not among the source files. *)
Variable stream_pairs : postings_stream -> count_t * list access.

(** [find(pk)]; [None] stands for dereferencing an empty optional. *)
Definition find (pf : postings_file) (pk : Z)
  : option postings_data * list access :=
  let pdata := postings_data_new pk in
  let idx := pk in
  if idx <? Z.of_nat (length (byte_locations_ pf)) then
    let '(stream, t1) := find_stream pf pk in
    match stream with
    | None => (None, IndexSize :: t1)
    | Some st =>
        let '(cs, t2) := stream_pairs st in
        (Some (set_counts pdata cs), IndexSize :: t1 ++ t2)
    end
  else (Some pdata, [IndexSize]).

End Find.

(** ** The compress pass (forward_index.cpp)

    The uncompressed file is the list of records that successive calls of
    [read_packed] return before the end of the file; the result is the list
    of records handed to [out.write], in order. *)

(** The [for] loop that writes out a gap: [d_id] from [last_id + 1] while
    [d_id < pk]. *)
Definition gap_fill (last_id pk : Z) : list postings_data :=
  let d_id := wrap64 (last_id + 1) in
  map postings_data_new (seqZ d_id (pk - d_id)).

Fixpoint compress_loop (input : list postings_data) (last_id : Z)
    (out : list postings_data) : list postings_data :=
  match input with
  | [] => out
  | pdata :: input' =>
      let out := out ++ gap_fill last_id (primary_key pdata) in
      let out := out ++ [pdata] in
      compress_loop input' (primary_key pdata) out
  end.

Definition compress (input : list postings_data) (num_docs : Z)
  : list postings_data :=
  compress_loop input 0 [].

(** Modelled from the spec: [postings_file_writer] is not among the source
    files.  It is built for [num_docs] primary keys, and before writing
    record k it puts the current byte position in slot k of the offset
    table; so slot k addresses the k-th record written, if there is one. *)
Definition slot (out : list postings_data) (k : Z) : option postings_data :=
  if k <? 0 then None else out !! Z.to_nat k.

(** The offset table is dense over [0, num_docs): every slot addresses a
    record written for that primary key. *)
Definition dense (out : list postings_data) (num_docs : Z) : bool :=
  forallb (fun k => match slot out k with
                    | Some r => primary_key r =? k
                    | None => false
                    end) (seqZ 0 num_docs).

(** The primary keys of the input go up from [last], each a 64-bit
    value. *)
Fixpoint keys_go_up (last : Z) (input : list postings_data) : Prop :=
  match input with
  | [] => True
  | r :: input' =>
      (last < primary_key r < uint64_modulus) /\ keys_go_up (primary_key r) input'
  end.

(** The primary key of the last record of the input, [last] if there is
    none. *)
Fixpoint final_key (last : Z) (input : list postings_data) : Z :=
  match input with
  | [] => last
  | r :: input' => final_key (primary_key r) input'
  end.

(** ** More operations of a record (postings_data.tcc) *)

(** [increase_count(s_id, amount)]: the pair is pushed at the back when
    [lower_bound] returns the end, inserted before the iterator when the
    key found differs, and added to the weight found otherwise. *)
Definition increase_count (r : postings_data) (s_id : Z) (amount : float)
  : postings_data :=
  let cs := _counts r in
  let it := lower_bound cs 0 (length cs) s_id in
  if (it =? length cs)%nat then
    {| _p_id := _p_id r; _counts := cs ++ [(s_id, amount)] |}
  else
    match cs !! it with
    | None => {| _p_id := _p_id r; _counts := cs ++ [(s_id, amount)] |}
    | Some q =>
        if negb (q.1 =? s_id) then
          {| _p_id := _p_id r;
             _counts := take it cs ++ (s_id, amount) :: drop it cs |}
        else
          {| _p_id := _p_id r;
             _counts := <[it := (q.1, (q.2 + amount)%float)]> cs |}
    end.

(** A record grown from no pairs by one [increase_count] per pair. *)
Definition increase_counts (p_id : Z) (pairs : count_t) : postings_data :=
  foldl (fun r p => increase_count r p.1 p.2) (postings_data_new p_id) pairs.

(** The strict order on keys. *)
Definition key_lt : relation pair_t := fun a b => a.1 < b.1.

(** The weight a key ends with when the pairs of [l] are added up from the
    left, on top of [acc]. *)
Fixpoint add_up (k : Z) (acc : option float) (l : count_t) : option float :=
  match l with
  | [] => acc
  | p :: l' =>
      add_up k (if p.1 =? k then sum_opt acc (Some p.2) else acc) l'
  end.

(** ** Several records in one compressed file *)

(** One [write_compressed] call per record, on the same writer. *)
Fixpoint write_records (delimiter : Z) (rs : list postings_data)
    (writer : list Z) : option (list Z) :=
  match rs with
  | [] => Some writer
  | r :: rs' =>
      match write_compressed delimiter r writer with
      | None => None
      | Some writer' => write_records delimiter rs' writer'
      end
  end.

(** One [read_compressed] call per primary key, on the same reader, each on
    a record made with that primary key. *)
Fixpoint read_records (delimiter : Z) (pids : list Z) (reader : list Z)
  : option (list postings_data * list Z) :=
  match pids with
  | [] => Some ([], reader)
  | pid :: pids' =>
      match read_compressed delimiter (postings_data_new pid) reader with
      | None => None
      | Some (r, reader') =>
          match read_records delimiter pids' reader' with
          | None => None
          | Some (rs, rest) => Some (r :: rs, rest)
          end
      end
  end.

(** A record that [write_compressed] writes and [read_compressed] reads
    back: valid, with a pair, and with no gap that is the delimiter. *)
Definition writable (delimiter : Z) (r : postings_data) : bool :=
  valid_record r && (0 <? length (_counts r))%nat
  && gaps_avoid delimiter 0 (_counts r).

(** The values of a file: a key value and the bits of a weight per pair. *)
Fixpoint file_values (gw : list (Z * Z)) : list Z :=
  match gw with
  | [] => []
  | (g, b) :: gw' => g :: b :: file_values gw'
  end.

(** A key value that is a 64-bit value other than the delimiter, next to the
    bits of a double. *)
Definition plain_pair (delimiter : Z) (gb : Z * Z) : bool :=
  (0 <=? gb.1) && (gb.1 <? uint64_modulus) && negb (gb.1 =? delimiter)
  && (double_to_bits (bits_to_double gb.2) =? gb.2).

(** What [read_compressed] makes of the values of a file: keys are running
    sums of the key values, weights are the doubles with the given bits. *)
Fixpoint decoded (prev : Z) (gw : list (Z * Z)) : count_t :=
  match gw with
  | [] => []
  | (g, b) :: gw' =>
      (wrap64 (prev + g), bits_to_double b) :: decoded (wrap64 (prev + g)) gw'
  end.

(** Every weight added to itself. *)
Definition doubled (l : count_t) : count_t :=
  map (fun p : pair_t => (p.1, (p.2 + p.2)%float)) l.

(** ** Postings from libsvm data (forward_index.cpp)

    The data file is the list of its lines as [io::libsvm_parser] reads
    them, a label and the counts of the line (the parser is not among the
    source files); [class_label] is the type of labels.  The result holds
    what the function leaves behind: [total_unique_terms_], the records
    handed to [out.write], the labels set and the metadata written, each in
    the order of the calls. *)

Inductive forward_index_exception : Type :=
  | forward_index_error (what : string).

(** [static_cast<uint64_t>] of a double: the value with its fraction cut
    off, undefined ([None]) when that is not a 64-bit value. *)
Definition double_to_uint64 (x : float) : option Z :=
  match Prim2SF x with
  | S754_zero _ => Some 0
  | S754_finite s m e =>
      let t := if 0 <=? e then Z.pos m * 2 ^ e else Z.pos m / 2 ^ (- e) in
      if s then (if t =? 0 then Some 0 else None)
      else if t <? uint64_modulus then Some t else None
  | _ => None
  end.

(** The body of the loop over the counts of one line; the state is
    [num_unique], [total_unique_terms_] and [length]. *)
Definition scan_count (st : Z * Z * float) (count : pair_t) : Z * Z * float :=
  let '(num_unique, total_unique_terms_, length) := st in
  (wrap64 (num_unique + 1),
   (if total_unique_terms_ <? count.1 then count.1 else total_unique_terms_),
   (length + count.2)%float).

Section Libsvm.

Context {class_label : Type}.

Record libsvm_build : Type := mk_libsvm_build {
  lb_d_id : Z;
  lb_total_unique_terms : Z;
  lb_written : list postings_data;
  lb_labels : list (Z * class_label);
  lb_metadata : list (Z * option Z * Z)
}.

(** The body of the [while (std::getline(input, line))] loop. *)
Definition libsvm_line (st : libsvm_build) (line : class_label * count_t)
  : libsvm_build :=
  let d_id := lb_d_id st in
  let lbl := line.1 in
  let counts := line.2 in
  let '(num_unique, total_unique_terms_, length) :=
    foldl scan_count (0, lb_total_unique_terms st, 0%float) counts in
  let pdata := set_counts (postings_data_new d_id) counts in
  {| lb_d_id := wrap64 (d_id + 1);
     lb_total_unique_terms := total_unique_terms_;
     lb_written := lb_written st ++ [pdata];
     lb_labels := lb_labels st ++ [(d_id, lbl)];
     lb_metadata :=
       lb_metadata st ++ [(d_id, double_to_uint64 length, num_unique)] |}.

(** [create_libsvm_postings(config)]: [prefix] and [dataset] are the two
    configuration values, absent or present. *)
Definition create_libsvm_postings (prefix dataset : option string)
    (lines : list (class_label * count_t))
  : forward_index_exception + libsvm_build :=
  match prefix with
  | None => inl (forward_index_error "prefix missing from configuration file")
  | Some _ =>
      match dataset with
      | None =>
          inl (forward_index_error "dataset missing from configuration file")
      | Some _ =>
          let st :=
            foldl libsvm_line
                  {| lb_d_id := 0; lb_total_unique_terms := 0;
                     lb_written := []; lb_labels := []; lb_metadata := [] |}
                  lines in
          inr {| lb_d_id := lb_d_id st;
                 lb_total_unique_terms := wrap64 (lb_total_unique_terms st + 1);
                 lb_written := lb_written st;
                 lb_labels := lb_labels st;
                 lb_metadata := lb_metadata st |}
      end
  end.

End Libsvm.

(** The weights of a line added up from the left, as the loop does. *)
Definition sum_weights (counts : count_t) : float :=
  foldl (fun (x : float) (p : pair_t) => (x + p.2)%float) 0%float counts.

(** The largest of [t] and the keys of a line. *)
Definition max_key (t : Z) (counts : count_t) : Z :=
  foldl (fun (t : Z) (p : pair_t) => if t <? p.1 then p.1 else t) t counts.

(** Every feature id of the file is a 64-bit value below 2^64 - 1. *)
Definition feature_ids_in_range {class_label : Type}
    (lines : list (class_label * count_t)) : bool :=
  forallb (fun line : class_label * count_t =>
             forallb (fun p : pair_t =>
                        (0 <=? p.1) && (p.1 <? uint64_modulus - 1)) line.2)
          lines.

(** ** Values used in the examples *)

(** The delimiter is a parameter of the encoding; the closed examples take
    the largest 64-bit value for it. *)
Definition max_uint64 : Z := 2 ^ 64 - 1.

Definition gap_example : postings_data :=
  {| _p_id := 7; _counts := [(10, 1%float); (12, 2%float); (100, 3%float)] |}.

(** A record whose only key is the value taken for the delimiter. *)
Definition delimiter_key_record : postings_data :=
  {| _p_id := 7; _counts := [(max_uint64, 1%float)] |}.

Definition merge_left : postings_data :=
  {| _p_id := 7; _counts := [(1, 1%float); (3, 2%float)] |}.

Definition merge_right : postings_data :=
  {| _p_id := 7; _counts := [(2, 4%float); (3, 5%float)] |}.

Definition merge_result : postings_data :=
  {| _p_id := 7; _counts := [(1, 1%float); (2, 4%float); (3, 7%float)] |}.

(** A postings file with two primary keys, and a decoder that yields no
    pairs. *)
Definition two_key_file : postings_file :=
  {| postings_ := [0; 0; 0; 0]; byte_locations_ := [0; 2] |}.

Definition no_pairs (st : postings_stream) : count_t * list access := ([], []).

(** An uncompressed file whose only record is for document 1. *)
Definition doc_one : postings_data :=
  {| _p_id := 1; _counts := [(0, 1%float)] |}.

Definition doc_zero : postings_data :=
  {| _p_id := 0; _counts := [(0, 1%float)] |}.

Definition doc_three : postings_data :=
  {| _p_id := 3; _counts := [(2, 1%float)] |}.

(** Pairs in no order and with a key repeated. *)
Definition unordered_pairs : count_t :=
  [(3, 1%float); (1, 2%float); (3, 4%float); (2, 8%float)].

(** The three documents "+1 1:2 3:1", "-1 2:1" and "+1 1:1 2:3 3:2", as
    the parser hands them over, feature ids counted from 0. *)
Definition three_lines : list (Z * count_t) :=
  [(1, [(0, 2%float); (2, 1%float)]);
   (-1, [(1, 1%float)]);
   (1, [(0, 1%float); (1, 3%float); (2, 2%float)])].

(** A record that holds the one key 1, with weight [x]. *)
Definition single (x : float) : postings_data :=
  {| _p_id := 7; _counts := [(1, x)] |}.

(** The doubles nearest to 0.1, 0.2 and 0.3. *)
Definition one_tenth : float := 0x1.999999999999ap-4%float.
Definition two_tenths : float := 0x1.999999999999ap-3%float.
Definition three_tenths : float := 0x1.3333333333333p-2%float.

(** * Proofs *)

(** ** The bits of a double *)

Lemma digits2_pos_bounds (m : positive) :
  2 ^ (Z.pos (digits2_pos m) - 1) <= Z.pos m < 2 ^ Z.pos (digits2_pos m).
Proof.
  induction m as [m IH | m IH |]; cbn [digits2_pos].
  - rewrite Pos2Z.inj_succ.
    replace (Z.succ (Z.pos (digits2_pos m)) - 1)
      with (Z.succ (Z.pos (digits2_pos m) - 1)) by lia.
    rewrite !Z.pow_succ_r by lia. lia.
  - rewrite Pos2Z.inj_succ.
    replace (Z.succ (Z.pos (digits2_pos m)) - 1)
      with (Z.succ (Z.pos (digits2_pos m) - 1)) by lia.
    rewrite !Z.pow_succ_r by lia. lia.
  - cbn. lia.
Qed.

(** What [valid_binary] says of a finite double: a subnormal has exponent
    -1074 and a mantissa below 2^52; a normal one has a 53-bit mantissa. *)
Lemma valid_finite_cases (s : bool) (m : positive) (e : Z) :
  valid_binary (S754_finite s m e) = true ->
  (e = -1074 /\ Z.pos m < 2 ^ 52) \/
  (-1074 <= e <= 971 /\ 2 ^ 52 <= Z.pos m < 2 ^ 53).
Proof.
  unfold SpecFloat.valid_binary, bounded, canonical_mantissa, fexp, SpecFloat.emin.
  unfold prec, emax. intros H.
  apply andb_true_iff in H as [H1 H2].
  apply Z.eqb_eq in H1. apply Z.leb_le in H2.
  pose proof (digits2_pos_bounds m) as [Hlo Hhi].
  destruct (Z_lt_le_dec (Z.pos (digits2_pos m)) 53) as [Hd | Hd].
  - left. split; [lia |].
    eapply Z.lt_le_trans; [exact Hhi |].
    apply Z.pow_le_mono_r; lia.
  - right. assert (Z.pos (digits2_pos m) = 53) as Hd' by lia.
    rewrite Hd' in Hlo, Hhi. split; [lia |]. cbn in Hlo. lia.
Qed.

Lemma split_bits (sb : bool) (q r : Z) :
  0 <= q < 2048 -> 0 <= r < 2 ^ 52 ->
  let z := sign_bit sb + q * 2 ^ 52 + r in
  (2 ^ 63 <=? z) = sb /\ (z / 2 ^ 52) mod 2 ^ 11 = q /\ z mod 2 ^ 52 = r.
Proof.
  intros Hq Hr z.
  set (b := if sb then 1 else 0).
  assert (Hz : z = (b * 2048 + q) * 2 ^ 52 + r).
  { unfold z, b, sign_bit. destruct sb; change (2 ^ 63) with (2048 * 2 ^ 52); lia. }
  assert (Hdiv : z / 2 ^ 52 = b * 2048 + q).
  { symmetry. apply Z.div_unique with r; [lia | lia]. }
  assert (Hmod : z mod 2 ^ 52 = r).
  { symmetry. apply Z.mod_unique with (b * 2048 + q); [lia | lia]. }
  split; [| split]; [| | exact Hmod].
  - unfold z, sign_bit. destruct sb.
    + apply Z.leb_le. lia.
    + apply Z.leb_gt. change (2 ^ 63) with (2048 * 2 ^ 52). lia.
  - rewrite Hdiv. change (2 ^ 11) with 2048.
    symmetry. apply Z.mod_unique with b; [lia | lia].
Qed.

Lemma spec_of_bits_of_spec (f : spec_float) :
  valid_binary f = true -> spec_of_bits (bits_of_spec f) = f.
Proof.
  destruct f as [s | s | | s m e]; intros Hv.
  - destruct s; reflexivity.
  - destruct s; reflexivity.
  - reflexivity.
  - apply valid_finite_cases in Hv as [[-> Hm] | [He Hm]]; unfold bits_of_spec.
    + apply Z.ltb_lt in Hm as Hm'. rewrite Hm'.
      destruct (split_bits s 0 (Z.pos m)) as (H1 & H2 & H3); [lia | lia |].
      cbn zeta in H1, H2, H3. rewrite Z.mul_0_l, Z.add_0_r in H1, H2, H3.
      unfold spec_of_bits. rewrite H1, H2, H3. reflexivity.
    + assert (Hm' : (Z.pos m <? 2 ^ 52) = false) by (apply Z.ltb_ge; lia).
      rewrite Hm'.
      change (2 ^ 53) with (2 * 2 ^ 52) in Hm.
      destruct (split_bits s (e + 1075) (Z.pos m - 2 ^ 52)) as (H1 & H2 & H3);
        [lia | lia |].
      cbn zeta in H1, H2, H3.
      unfold spec_of_bits. rewrite H1, H2, H3.
      destruct (Z.eqb_spec (e + 1075) 0) as [? | _]; [lia |].
      destruct (Z.eqb_spec (e + 1075) 2047) as [? | _]; [lia |].
      replace (2 ^ 52 + (Z.pos m - 2 ^ 52)) with (Z.pos m) by lia.
      f_equal. lia.
Qed.

(** Casting a double to its bits and back gives the double again. *)
Lemma bits_to_double_to_bits (d : float) :
  bits_to_double (double_to_bits d) = d.
Proof.
  unfold bits_to_double, double_to_bits.
  rewrite spec_of_bits_of_spec by apply Prim2SF_valid.
  apply SF2Prim_Prim2SF.
Qed.

(** The bits of a double are a 64-bit value. *)
Lemma double_to_bits_range (d : float) : is_uint64 (double_to_bits d).
Proof.
  unfold double_to_bits, is_uint64, uint64_modulus.
  pose proof (Prim2SF_valid d) as Hv.
  destruct (Prim2SF d) as [s | s | | s m e]; unfold bits_of_spec.
  - destruct s; cbn; lia.
  - destruct s; cbn; lia.
  - cbn; lia.
  - apply valid_finite_cases in Hv as [[-> Hm] | [He Hm]].
    + apply Z.ltb_lt in Hm as Hm'. rewrite Hm'.
      change (2 ^ 52) with 4503599627370496 in Hm.
      destruct s; cbn [sign_bit]; change (2 ^ 63) with 9223372036854775808;
        change (2 ^ 64) with 18446744073709551616; lia.
    + assert (Hm' : (Z.pos m <? 2 ^ 52) = false) by (apply Z.ltb_ge; lia).
      rewrite Hm'.
      change (2 ^ 52) with 4503599627370496 in *.
      change (2 ^ 53) with 9007199254740992 in *.
      destruct s; cbn [sign_bit]; change (2 ^ 63) with 9223372036854775808;
        change (2 ^ 64) with 18446744073709551616; lia.
Qed.

(** Addition of doubles is commutative. *)
Lemma SFadd_comm (x y : spec_float) : SF64add x y = SF64add y x.
Proof.
  unfold SF64add, SFadd.
  destruct x as [sx | sx | | sx mx ex], y as [sy | sy | | sy my ey];
    try reflexivity; try (destruct sx, sy; reflexivity).
  rewrite (Z.min_comm ey ex), Z.add_comm. reflexivity.
Qed.

Lemma double_add_comm (x y : float) : (x + y)%float = (y + x)%float.
Proof.
  rewrite <- (SF2Prim_Prim2SF (x + y)), <- (SF2Prim_Prim2SF (y + x)).
  rewrite !add_spec, SFadd_comm. reflexivity.
Qed.

(** ** write_compressed and read_compressed *)

Lemma strictly_ascending_cons (p : pair_t) (l : count_t) :
  strictly_ascending (p :: l) = true ->
  strictly_ascending l = true /\ Forall (fun q : pair_t => p.1 < q.1) l.
Proof.
  revert p. induction l as [| q l IH]; intros p H.
  - split; [reflexivity | constructor].
  - cbn [strictly_ascending] in H. apply andb_true_iff in H as [Hpq Hl].
    apply Z.ltb_lt in Hpq. split; [exact Hl |].
    constructor; [exact Hpq |].
    destruct (IH q Hl) as [_ Hq].
    eapply Forall_impl; [exact Hq |]. cbn. intros; lia.
Qed.

Lemma valid_counts_ascending_from (p : pair_t) (l : count_t) :
  strictly_ascending (p :: l) = true -> keys_in_range (p :: l) = true ->
  (0 <= p.1 < uint64_modulus) /\ ascending_from p.1 l.
Proof.
  revert p. induction l as [| q l IH]; intros p Hs Hr.
  - cbn in Hr. rewrite andb_true_r in Hr. apply andb_true_iff in Hr as [H1 H2].
    apply Z.leb_le in H1. apply Z.ltb_lt in H2. cbn. lia.
  - cbn [keys_in_range forallb] in Hr. apply andb_true_iff in Hr as [Hp Hr].
    apply andb_true_iff in Hp as [H1 H2].
    apply Z.leb_le in H1. apply Z.ltb_lt in H2.
    cbn [strictly_ascending] in Hs. apply andb_true_iff in Hs as [Hpq Hs].
    apply Z.ltb_lt in Hpq.
    destruct (IH q Hs Hr) as [Hq Hl].
    split; [lia |]. cbn [ascending_from]. split; [lia | exact Hl].
Qed.

Lemma insert_middle {A : Type} (l1 l2 : list A) (x y : A) :
  <[length l1 := y]> (l1 ++ x :: l2) = l1 ++ y :: l2.
Proof. rewrite insert_app_r_alt by lia. rewrite Nat.sub_diag. reflexivity. Qed.

Lemma wrap64_small (z : Z) : 0 <= z < uint64_modulus -> wrap64 z = z.
Proof. intros H. unfold wrap64. apply Z.mod_small. exact H. Qed.

(** The gap loop, started at index [length done] with [rest] still to
    write, appends the gaps of [rest]. *)
Lemma write_loop_gaps (rest : count_t) :
  forall (done : count_t) (cur : Z) (w : list Z),
    exists mc cur',
      write_loop (seq (length done) (length rest)) (done ++ rest, cur, w)
      = Some (mc, cur', w ++ gap_tokens cur rest).
Proof.
  induction rest as [| p rest IH]; intros done cur w.
  - cbn. rewrite !app_nil_r. eauto.
  - cbn [length seq write_loop]. unfold write_step.
    rewrite list_lookup_middle by reflexivity.
    rewrite insert_middle.
    rewrite list_lookup_middle by reflexivity.
    cbn [fst snd].
    destruct (IH (done ++ [(wrap64 (p.1 - cur), p.2)]) p.1
                 (w ++ [wrap64 (p.1 - cur); double_to_bits p.2]))
      as (mc & cur' & E).
    rewrite length_app, Nat.add_1_r in E. cbn [length] in E.
    rewrite <- (app_assoc done) in E. cbn [app] in E.
    exists mc, cur'. rewrite E. f_equal. f_equal.
    rewrite <- app_assoc. reflexivity.
Qed.

Lemma write_compressed_nonempty (delimiter : Z) (pid : Z) (p : pair_t)
    (rest : count_t) (w : list Z) :
  write_compressed delimiter {| _p_id := pid; _counts := p :: rest |} w
  = Some (w ++ first_absolute_then_gaps (p :: rest) ++ [delimiter]).
Proof.
  unfold write_compressed. cbn [_counts lookup list_lookup].
  cbn [length]. rewrite Nat.sub_succ, Nat.sub_0_r.
  destruct (write_loop_gaps rest [p] p.1 (w ++ [p.1; double_to_bits p.2]))
    as (mc & cur' & E).
  cbn [length app] in E. rewrite E.
  f_equal. cbn [first_absolute_then_gaps].
  rewrite <- !app_assoc. reflexivity.
Qed.

(** With keys ascending from [prev] no gap wraps. *)
Lemma gap_tokens_ascending (l : count_t) :
  forall prev : Z, 0 <= prev -> ascending_from prev l ->
    gap_tokens prev l = key_differences prev l.
Proof.
  induction l as [| p l IH]; intros prev Hprev Hasc; [reflexivity |].
  destruct Hasc as [Hp Hasc]. cbn [gap_tokens key_differences].
  rewrite wrap64_small by lia. rewrite IH by (lia || exact Hasc). reflexivity.
Qed.

(** So for a record with strictly ascending 64-bit keys the gaps written
    are the differences of the keys. *)
Lemma write_compressed_plain_gaps (delimiter pid : Z) (p : pair_t) (rest : count_t)
    (w : list Z) :
  strictly_ascending (p :: rest) = true -> keys_in_range (p :: rest) = true ->
  write_compressed delimiter {| _p_id := pid; _counts := p :: rest |} w
  = Some (w ++ p.1 :: double_to_bits p.2 :: key_differences p.1 rest
            ++ [delimiter]).
Proof.
  intros Hs Hr. destruct (valid_counts_ascending_from p rest Hs Hr) as [Hp Hasc].
  rewrite write_compressed_nonempty. cbn [first_absolute_then_gaps].
  rewrite gap_tokens_ascending by (lia || exact Hasc).
  reflexivity.
Qed.

Lemma write_compressed_plain_gaps_witness :
  write_compressed max_uint64
    {| _p_id := 7; _counts := [(10, 1%float); (12, 2%float); (100, 3%float)] |} []
  = Some ([] ++ 10 :: double_to_bits 1
             :: key_differences 10 [(12, 2%float); (100, 3%float)]
             ++ [max_uint64]).
Proof.
  apply (write_compressed_plain_gaps max_uint64 7 (10, 1%float)
           [(12, 2%float); (100, 3%float)] []); reflexivity.
Defined.

Lemma wrap64_add_gap (prev k : Z) :
  0 <= k < uint64_modulus -> wrap64 (prev + wrap64 (k - prev)) = k.
Proof.
  intros Hk. unfold wrap64, uint64_modulus in *.
  rewrite Zplus_mod_idemp_r. replace (prev + (k - prev)) with k by lia.
  apply Z.mod_small. exact Hk.
Qed.

(** The read loop undoes the gaps, as long as no gap is the delimiter. *)
Lemma read_loop_gaps (delimiter : Z) (rest : count_t) :
  forall (prev : Z) (acc : count_t) (tail : list Z),
    keys_in_range rest = true ->
    gaps_avoid delimiter prev rest = true ->
    read_loop delimiter (gap_tokens prev rest ++ delimiter :: tail) prev acc
    = Some (acc ++ rest, tail).
Proof.
  induction rest as [| p rest IH]; intros prev acc tail Hr Hav.
  - cbn. rewrite Z.eqb_refl, app_nil_r. reflexivity.
  - cbn [keys_in_range forallb] in Hr. apply andb_true_iff in Hr as [Hp Hr].
    apply andb_true_iff in Hp as [Hp1 Hp2].
    apply Z.leb_le in Hp1. apply Z.ltb_lt in Hp2.
    cbn [gaps_avoid] in Hav. apply andb_true_iff in Hav as [Hpd Hav].
    apply negb_true_iff in Hpd.
    cbn [gap_tokens app read_loop]. rewrite Hpd.
    rewrite wrap64_add_gap by lia.
    rewrite bits_to_double_to_bits.
    rewrite (IH p.1 (acc ++ [(p.1, p.2)]) tail Hr Hav).
    destruct p as [k x]. cbn [fst snd]. rewrite <- app_assoc. reflexivity.
Qed.

Lemma first_absolute_is_gap_from_zero (l : count_t) :
  keys_in_range l = true -> first_absolute_then_gaps l = gap_tokens 0 l.
Proof.
  destruct l as [| p l]; cbn [first_absolute_then_gaps gap_tokens];
    [reflexivity |].
  cbn [keys_in_range forallb]. intros Hr. apply andb_true_iff in Hr as [Hp _].
  apply andb_true_iff in Hp as [Hp1 Hp2].
  apply Z.leb_le in Hp1. apply Z.ltb_lt in Hp2.
  rewrite Z.sub_0_r, wrap64_small by lia. reflexivity.
Qed.

Lemma valid_record_counts (r : postings_data) :
  valid_record r = true ->
  strictly_ascending (_counts r) = true /\ keys_in_range (_counts r) = true.
Proof.
  unfold valid_record, valid_counts. intros H.
  repeat (apply andb_true_iff in H as [H ?]). auto.
Qed.

(** C1, as amended: for a valid record with at least one pair, where
    neither the first key nor a gap between two keys in a row is the
    delimiter, [write_compressed] writes the record in full, and
    [read_compressed], run on a record made with the same primary key, reads
    the written values back into a record equal to it (same primary key,
    same pairs in the same order) and stops right after them. *)
Theorem read_compressed_write_compressed (delimiter : Z) (r : postings_data)
    (tail : list Z) :
  valid_record r = true ->
  (0 < length (_counts r))%nat ->
  gaps_avoid delimiter 0 (_counts r) = true ->
  exists data,
    write_compressed delimiter r [] = Some data /\
    read_compressed delimiter (postings_data_new (_p_id r)) (data ++ tail)
    = Some (r, tail).
Proof.
  intros Hv Hlen Hav.
  apply valid_record_counts in Hv as [Hs Hr].
  destruct r as [pid [| p rest]]; cbn [_counts _p_id] in *; [cbn in Hlen; lia |].
  exists (first_absolute_then_gaps (p :: rest) ++ [delimiter]). split.
  - rewrite write_compressed_nonempty. reflexivity.
  - unfold read_compressed. rewrite first_absolute_is_gap_from_zero by exact Hr.
    rewrite <- app_assoc. cbn [app].
    rewrite (read_loop_gaps delimiter (p :: rest) 0 [] tail Hr Hav).
    reflexivity.
Qed.

Lemma read_compressed_write_compressed_witness :
  exists data,
    write_compressed max_uint64 gap_example [] = Some data /\
    read_compressed max_uint64 (postings_data_new (_p_id gap_example)) (data ++ [])
    = Some (gap_example, []).
Proof.
  apply (read_compressed_write_compressed max_uint64 gap_example []).
  - reflexivity.
  - cbn. lia.
  - reflexivity.
Defined.

(** Whatever 64-bit value the delimiter has, the record whose one key is
    that value is read back as a record with no pairs. *)
Lemma delimiter_key_not_restored (delimiter pid : Z) (x : float) :
  exists data,
    write_compressed delimiter {| _p_id := pid; _counts := [(delimiter, x)] |} []
    = Some data /\
    read_compressed delimiter (postings_data_new pid) data
    = Some (postings_data_new pid, [double_to_bits x; delimiter]).
Proof.
  eexists. split.
  - rewrite write_compressed_nonempty. reflexivity.
  - cbn. unfold read_compressed. cbn. rewrite Z.eqb_refl. reflexivity.
Qed.

(** C1, counterexample: two valid records that are not read back as they
    were.  The written values do not hold the primary key: read into a
    record made with the primary key 99, the values written for
    [gap_example], whose primary key is 7, give a record with the primary
    key 99.  And [delimiter_key_record], read into a record made with its
    own primary key, comes back with no pairs. *)
Lemma roundtrip_not_for_every_record :
  valid_record gap_example = true /\
  write_compressed max_uint64 gap_example []
  = Some [10; double_to_bits 1; 2; double_to_bits 2; 88; double_to_bits 3;
          max_uint64] /\
  read_compressed max_uint64 (postings_data_new 99)
    [10; double_to_bits 1; 2; double_to_bits 2; 88; double_to_bits 3;
     max_uint64]
  = Some ({| _p_id := 99; _counts := _counts gap_example |}, []) /\
  valid_record delimiter_key_record = true /\
  write_compressed max_uint64 delimiter_key_record []
  = Some [max_uint64; double_to_bits 1; max_uint64] /\
  read_compressed max_uint64 (postings_data_new 7)
                  [max_uint64; double_to_bits 1; max_uint64]
  = Some (postings_data_new 7, [double_to_bits 1; max_uint64]).
Proof. repeat split; reflexivity. Qed.

(** C2, as amended: a record with at least one pair is written with no
    length prefix, as the first key absolute with the bits of its weight,
    then for each later pair the gap from the previous key and the bits of
    the weight, and last the delimiter; so the record with counts
    [(10, 1.0), (12, 2.0), (100, 3.0)] is written as 10, bits 1.0, 2,
    bits 2.0, 88, bits 3.0, delimiter. *)
Theorem write_compressed_layout (delimiter pid : Z) (p : pair_t)
    (rest : count_t) (w : list Z) :
  write_compressed delimiter {| _p_id := pid; _counts := p :: rest |} w
  = Some (w ++ first_absolute_then_gaps (p :: rest) ++ [delimiter]) /\
  write_compressed delimiter gap_example []
  = Some [10; double_to_bits 1; 2; double_to_bits 2; 88; double_to_bits 3;
          delimiter].
Proof.
  split.
  - apply write_compressed_nonempty.
  - unfold gap_example. rewrite write_compressed_nonempty. reflexivity.
Qed.

(** C2, counterexample: what is written for the record with counts
    [(10, 1.0), (12, 2.0), (100, 3.0)] starts with the key 10, not with the
    number of pairs, and ends with the delimiter. *)
Lemma write_compressed_has_no_length_prefix :
  write_compressed max_uint64 gap_example []
  = Some [10; double_to_bits 1; 2; double_to_bits 2; 88; double_to_bits 3;
          max_uint64] /\
  write_compressed max_uint64 gap_example []
  <> Some [3; 10; double_to_bits 1; 2; double_to_bits 2; 88; double_to_bits 3].
Proof. split; [reflexivity | discriminate]. Qed.

(** C3: on a record with no pairs [write_compressed] indexes
    [mutable_counts[0]] of an empty vector before it writes anything. *)
Theorem write_compressed_no_pairs (delimiter pid : Z) (w : list Z) :
  write_compressed delimiter (postings_data_new pid) w = None.
Proof. reflexivity. Qed.

(** The delimiter alone is read as a record with no pairs. *)
Lemma read_compressed_delimiter (delimiter : Z) (r : postings_data)
    (tail : list Z) :
  read_compressed delimiter r (delimiter :: tail)
  = Some ({| _p_id := _p_id r; _counts := [] |}, tail).
Proof. unfold read_compressed. cbn. rewrite Z.eqb_refl. reflexivity. Qed.

(** ** Binary search *)

Lemma strictly_ascending_lookup (l : count_t) :
  strictly_ascending l = true ->
  forall (i j : nat) (p q : pair_t),
    (i < j)%nat -> l !! i = Some p -> l !! j = Some q -> p.1 < q.1.
Proof.
  induction l as [| a l IH]; intros Hs i j p q Hij Hi Hj.
  - rewrite lookup_nil in Hi. discriminate.
  - apply strictly_ascending_cons in Hs as [Hs Ha].
    destruct j as [| j]; [lia |]. cbn in Hj.
    destruct i as [| i].
    + cbn in Hi. injection Hi as <-.
      rewrite Forall_lookup in Ha. exact (Ha j q Hj).
    + cbn in Hi. apply (IH Hs i j); [lia | assumption | assumption].
Qed.

(** The loop of [lower_bound] keeps the keys before [first] below [s] and
    the keys from [first + count] on at or above [s]; it ends with
    [count = 0]. *)
Lemma lower_bound_loop_partition (v : count_t) (s : Z) (last : nat) :
  (last <= length v)%nat ->
  (forall (i j : nat) (p q : pair_t),
      (i <= j < last)%nat -> v !! i = Some p -> v !! j = Some q -> p.1 <= q.1) ->
  forall (fuel first count : nat),
    (count <= fuel)%nat -> (first + count <= last)%nat ->
    (forall (j : nat) (p : pair_t), (j < first)%nat -> v !! j = Some p -> p.1 < s) ->
    (forall (j : nat) (p : pair_t),
        (first + count <= j < last)%nat -> v !! j = Some p -> s <= p.1) ->
    (first <= lower_bound_loop fuel v s first count <= first + count)%nat /\
    (forall (j : nat) (p : pair_t),
        (j < lower_bound_loop fuel v s first count)%nat ->
        v !! j = Some p -> p.1 < s) /\
    (forall (j : nat) (p : pair_t),
        (lower_bound_loop fuel v s first count <= j < last)%nat ->
        v !! j = Some p -> s <= p.1).
Proof.
  intros Hlast Hsorted.
  induction fuel as [| fuel IH]; intros first count Hfuel Hrange Hlo Hhi.
  - assert (count = 0)%nat as -> by lia. cbn [lower_bound_loop].
    rewrite Nat.add_0_r in *. repeat split; [lia | lia | exact Hlo | exact Hhi].
  - cbn [lower_bound_loop].
    destruct (Nat.eqb_spec count 0) as [-> | Hpos].
    { rewrite Nat.add_0_r in *. repeat split; [lia | lia | exact Hlo | exact Hhi]. }
    assert (Hstep : (count / 2 < count)%nat) by (apply Nat.div_lt; lia).
    destruct (lookup_lt_is_Some_2 v (first + count / 2)) as [p Hp]; [lia |].
    rewrite Hp.
    destruct (Z.ltb_spec p.1 s) as [Hlt | Hge].
    + destruct (IH (S (first + count / 2)) (count - S (count / 2))%nat)
        as (Hr & Hl & Hu).
      * lia.
      * lia.
      * intros j q Hj Hq.
        assert (q.1 <= p.1) by (apply (Hsorted j (first + count / 2)%nat); [lia | assumption | assumption]).
        lia.
      * intros j q Hj Hq. apply (Hhi j q); [lia | assumption].
      * repeat split; [lia | lia | exact Hl | exact Hu].
    + destruct (IH first (count / 2)%nat) as (Hr & Hl & Hu).
      * lia.
      * lia.
      * exact Hlo.
      * intros j q Hj Hq.
        destruct (Nat.lt_ge_cases j (first + count)) as [Hin | Hout].
        -- assert (p.1 <= q.1) by (apply (Hsorted (first + count / 2)%nat j); [lia | assumption | assumption]).
           lia.
        -- apply (Hhi j q); [lia | assumption].
      * repeat split; [lia | lia | exact Hl | exact Hu].
Qed.

(** [lower_bound] over a range sorted by key returns the partition point of
    the range: the keys before it are below [s], those from it on are not. *)
Lemma lower_bound_partition (v : count_t) (s : Z) (last : nat) :
  (last <= length v)%nat ->
  strictly_ascending (take last v) = true ->
  (lower_bound v 0 last s <= last)%nat /\
  (forall (j : nat) (p : pair_t),
      (j < lower_bound v 0 last s)%nat -> v !! j = Some p -> p.1 < s) /\
  (forall (j : nat) (p : pair_t),
      (lower_bound v 0 last s <= j < last)%nat -> v !! j = Some p -> s <= p.1).
Proof.
  intros Hlast Hs. unfold lower_bound. rewrite Nat.sub_0_r.
  destruct (lower_bound_loop_partition v s last Hlast) with
    (fuel := last) (first := 0%nat) (count := last) as (Hr & Hl & Hu).
  - intros i j p q Hij Hi Hj.
    destruct (Nat.eq_dec i j) as [-> | Hne]; [rewrite Hi in Hj; injection Hj as ->; lia |].
    apply Z.lt_le_incl.
    apply (strictly_ascending_lookup (take last v) Hs i j); [lia | |].
    + rewrite lookup_take_lt by lia. exact Hi.
    + rewrite lookup_take_lt by lia. exact Hj.
  - lia.
  - lia.
  - intros j p Hj. lia.
  - intros j p Hj. lia.
  - repeat split; [lia | exact Hl | exact Hu].
Qed.

(** ** Records as finite maps *)

Lemma assoc_Some_lookup (k : Z) (l : count_t) (w : float) :
  assoc k l = Some w -> exists j : nat, l !! j = Some (k, w).
Proof.
  induction l as [| a l IH]; cbn [assoc]; [discriminate |].
  destruct (Z.eqb_spec a.1 k) as [E | _].
  - intros [= <-]. exists 0%nat. destruct a as [a1 a2]; cbn in *. congruence.
  - intros H. destruct (IH H) as [j Hj]. exists (S j). exact Hj.
Qed.

Lemma assoc_None_keys (k : Z) (l : count_t) :
  assoc k l = None <-> k ∉ keys l.
Proof.
  induction l as [| a l IH]; cbn [assoc keys map].
  - split; [intros _; apply not_elem_of_nil | reflexivity].
  - rewrite not_elem_of_cons. destruct (Z.eqb_spec a.1 k) as [E | N].
    + split; [discriminate | intros [H _]; congruence].
    + rewrite IH. unfold keys. split; [intros H; split; [congruence | exact H] | intros [_ H]; exact H].
Qed.

Lemma assoc_lookup_nodup (l : count_t) :
  NoDup (keys l) ->
  forall (j : nat) (k : Z) (w : float), l !! j = Some (k, w) -> assoc k l = Some w.
Proof.
  induction l as [| a l IH]; intros Hnd j k w Hj.
  - rewrite lookup_nil in Hj. discriminate.
  - cbn [keys map] in Hnd. apply NoDup_cons in Hnd as [Ha Hnd].
    destruct j as [| j]; cbn in Hj.
    + injection Hj as ->. cbn. rewrite Z.eqb_refl. reflexivity.
    + cbn [assoc]. destruct (Z.eqb_spec a.1 k) as [E | _].
      * exfalso. apply Ha. rewrite E.
        apply (list_elem_of_fmap_2 fst l (k, w)).
        apply list_elem_of_lookup. eauto.
      * apply (IH Hnd j). exact Hj.
Qed.

Lemma strictly_ascending_NoDup (l : count_t) :
  strictly_ascending l = true -> NoDup (keys l).
Proof.
  induction l as [| a l IH]; intros Hs; cbn [keys map].
  - constructor.
  - apply strictly_ascending_cons in Hs as [Hs Ha].
    apply NoDup_cons. split; [| exact (IH Hs)].
    intros Hin. apply list_elem_of_fmap in Hin as (q & Hq1 & Hq2).
    rewrite Forall_forall in Ha. specialize (Ha q Hq2). cbn in Ha. lia.
Qed.

(** What the test that follows [lower_bound] in [count] and [merge_with]
    finds out: whether the key is among the first [last] pairs, and with
    which weight. *)
Lemma lower_bound_assoc (v : count_t) (k : Z) (last : nat) :
  (last <= length v)%nat ->
  strictly_ascending (take last v) = true ->
  (lower_bound v 0 last k <= last)%nat /\
  assoc k (take last v)
  = if decide (lower_bound v 0 last k < last)%nat then
      match v !! lower_bound v 0 last k with
      | Some q => if q.1 =? k then Some q.2 else None
      | None => None
      end
    else None.
Proof.
  intros Hlast Hs.
  destruct (lower_bound_partition v k last Hlast Hs) as (Hle & Hlo & Hhi).
  split; [exact Hle |].
  set (it := lower_bound v 0 last k) in *.
  assert (Hnone : forall q : pair_t,
             (it < last)%nat -> v !! it = Some q -> q.1 <> k ->
             assoc k (take last v) = None).
  { intros q Hit Hq Hne.
    destruct (assoc k (take last v)) as [w |] eqn:E; [| reflexivity].
    exfalso. apply assoc_Some_lookup in E as [j Hj].
    assert (j < last)%nat as Hjl.
    { apply lookup_lt_Some in Hj. rewrite length_take in Hj. lia. }
    rewrite lookup_take_lt in Hj by lia.
    destruct (Nat.lt_trichotomy j it) as [Hlt | [-> | Hgt]].
    - specialize (Hlo j _ Hlt Hj). cbn in Hlo. lia.
    - rewrite Hq in Hj. injection Hj as ->. cbn in Hne. congruence.
    - assert (q.1 < (k, w).1) as Hqk.
      { apply (strictly_ascending_lookup (take last v) Hs it j); [lia | |];
          rewrite lookup_take_lt by lia; assumption. }
      assert (k <= q.1) by (apply (Hhi it q); [lia | assumption]).
      cbn in Hqk. lia. }
  destruct (decide (it < last)%nat) as [Hit | Hit].
  - destruct (lookup_lt_is_Some_2 v it) as [q Hq]; [lia |]. rewrite Hq.
    destruct (Z.eqb_spec q.1 k) as [E | N].
    + apply (assoc_lookup_nodup (take last v) (strictly_ascending_NoDup _ Hs) it).
      rewrite lookup_take_lt by lia. rewrite Hq. subst k. destruct q; reflexivity.
    + exact (Hnone q Hit Hq N).
  - destruct (assoc k (take last v)) as [w |] eqn:E; [| reflexivity].
    exfalso. apply assoc_Some_lookup in E as [j Hj].
    assert (j < last)%nat as Hjl.
    { apply lookup_lt_Some in Hj. rewrite length_take in Hj. lia. }
    rewrite lookup_take_lt in Hj by lia.
    assert (j < it)%nat as Hlt by lia.
    specialize (Hlo j _ Hlt Hj). cbn in Hlo. lia.
Qed.

(** ** count *)

Lemma count_assoc (r : postings_data) (k : Z) :
  strictly_ascending (_counts r) = true ->
  count r k = default 0%float (assoc k (_counts r)).
Proof.
  intros Hs. unfold count.
  destruct (lower_bound_assoc (_counts r) k (length (_counts r))) as [Hle Ha].
  - lia.
  - rewrite take_ge by lia. exact Hs.
  - rewrite take_ge in Ha by lia. rewrite Ha.
    set (it := lower_bound (_counts r) 0 (length (_counts r)) k) in *.
    destruct (Nat.eqb_spec it (length (_counts r))) as [E | N].
    + destruct (decide (it < length (_counts r))%nat); [lia | reflexivity].
    + destruct (decide (it < length (_counts r))%nat); [| lia].
      destruct (_counts r !! it) as [q |]; [| reflexivity].
      destruct (q.1 =? k); reflexivity.
Qed.

(** C8: for a record that satisfies its invariants, [count k] is 0 when
    [k] is not a key of the record, and otherwise it is the weight stored
    with [k]. *)
Theorem count_absent_or_stored (r : postings_data) (k : Z) :
  valid_record r = true ->
  (k ∉ keys (counts r) -> count r k = 0%float) /\
  (forall w : float, (k, w) ∈ counts r -> count r k = w).
Proof.
  intros Hv. apply valid_record_counts in Hv as [Hs _]. unfold counts.
  rewrite (count_assoc r k Hs). split.
  - intros Hk. apply assoc_None_keys in Hk. rewrite Hk. reflexivity.
  - intros w Hw. apply list_elem_of_lookup in Hw as [j Hj].
    rewrite (assoc_lookup_nodup _ (strictly_ascending_NoDup _ Hs) j k w Hj).
    reflexivity.
Qed.

Lemma count_absent_or_stored_witness :
  (2 ∉ keys (counts merge_result) -> count merge_result 2 = 0%float) /\
  (forall w : float, (2, w) ∈ counts merge_result -> count merge_result 2 = w).
Proof. apply (count_absent_or_stored merge_result 2). reflexivity. Defined.

Example count_present : count merge_result 2 = 4%float.
Proof. reflexivity. Qed.

Example count_absent : count merge_result 4 = 0%float.
Proof. reflexivity. Qed.

(** ** Sorting *)

#[local] Instance key_le_total : Total key_le.
Proof. intros a b. unfold key_le. lia. Qed.

#[local] Instance key_le_trans : Transitive key_le.
Proof. intros a b c. unfold key_le. lia. Qed.

Lemma sort_counts_perm (l : count_t) : sort_counts l ≡ₚ l.
Proof. apply merge_sort_Permutation. Qed.

Lemma sort_counts_sorted (l : count_t) : StronglySorted key_le (sort_counts l).
Proof. apply StronglySorted_merge_sort; apply _. Qed.

Lemma keys_perm (l l' : count_t) : l ≡ₚ l' -> keys l ≡ₚ keys l'.
Proof. intros H. unfold keys. apply fmap_Permutation. exact H. Qed.

Lemma forallb_perm {A : Type} (f : A -> bool) (l l' : list A) :
  l ≡ₚ l' -> forallb f l = forallb f l'.
Proof.
  induction 1 as [| x l l' _ IH | x y l | l l' l'' _ IH1 _ IH2]; cbn.
  - reflexivity.
  - rewrite IH. reflexivity.
  - destruct (f x), (f y); reflexivity.
  - congruence.
Qed.

Lemma sorted_nodup_strictly_ascending (l : count_t) :
  StronglySorted key_le l -> NoDup (keys l) -> strictly_ascending l = true.
Proof.
  induction l as [| a l IH]; intros Hs Hnd; [reflexivity |].
  apply StronglySorted_inv in Hs as [Hs Ha].
  cbn [keys map] in Hnd. apply NoDup_cons in Hnd as [Hna Hnd].
  cbn [strictly_ascending]. destruct l as [| q l']; [reflexivity |].
  apply andb_true_iff. split; [| exact (IH Hs Hnd)].
  apply Z.ltb_lt. apply Forall_cons in Ha as [Haq _]. unfold key_le in Haq.
  assert (a.1 <> q.1); [| lia].
  intros E. apply Hna. rewrite E. cbn. apply list_elem_of_here.
Qed.

(** Sorting pairs whose keys are all different gives strictly ascending
    keys, and any two sorted arrangements of such pairs are the same list:
    the result of [std::sort] is then determined. *)
Lemma sorted_perm_unique (l l' : count_t) :
  NoDup (keys l) -> StronglySorted key_le l -> StronglySorted key_le l' ->
  l ≡ₚ l' -> l = l'.
Proof.
  intros Hnd Hs Hs' Hp.
  assert (Hs1 : strictly_ascending l = true)
    by (apply sorted_nodup_strictly_ascending; assumption).
  assert (Hs2 : strictly_ascending l' = true).
  { apply sorted_nodup_strictly_ascending; [assumption |].
    rewrite <- (keys_perm _ _ Hp). exact Hnd. }
  apply (StronglySorted_unique_strong key_le); try assumption.
  intros x1 x2 Hx1 Hx2 H12 H21. unfold key_le in *.
  rewrite <- Hp in Hx2.
  apply list_elem_of_lookup in Hx1 as [i Hi].
  apply list_elem_of_lookup in Hx2 as [j Hj].
  destruct (Nat.lt_trichotomy i j) as [Hlt | [-> | Hgt]].
  - pose proof (strictly_ascending_lookup l Hs1 i j x1 x2 Hlt Hi Hj). lia.
  - congruence.
  - pose proof (strictly_ascending_lookup l Hs1 j i x2 x1 Hgt Hj Hi). lia.
Qed.

(** ** set_counts *)

(** C4, as amended: for every input sequence, [set_counts] keeps the
    primary key and stores the pairs of the input, none merged and none
    dropped, in non-decreasing key order, with the same weights; the stored
    counts are strictly ascending, with no key twice, exactly when no key is
    repeated in the input. *)
Theorem set_counts_sorts (r : postings_data) (cs : count_t) :
  _p_id (set_counts r cs) = _p_id r /\
  _counts (set_counts r cs) ≡ₚ cs /\
  StronglySorted key_le (_counts (set_counts r cs)) /\
  weights_ok (_counts (set_counts r cs)) = weights_ok cs /\
  (strictly_ascending (_counts (set_counts r cs)) = true <-> NoDup (keys cs)).
Proof.
  cbn [set_counts _p_id _counts].
  split; [reflexivity |].
  split; [apply sort_counts_perm |].
  split; [apply sort_counts_sorted |].
  split; [apply forallb_perm, sort_counts_perm |].
  split.
  - intros Hs. rewrite <- (keys_perm _ _ (sort_counts_perm cs)).
    apply strictly_ascending_NoDup. exact Hs.
  - intros Hnd. apply sorted_nodup_strictly_ascending; [apply sort_counts_sorted |].
    rewrite (keys_perm _ _ (sort_counts_perm cs)). exact Hnd.
Qed.

(** C4, counterexample: after [set_counts] on two pairs with the key 1, the
    key 1 is held twice and the counts are not strictly ascending. *)
Lemma set_counts_keeps_repeated_keys :
  keys (_counts (set_counts (postings_data_new 7) [(1, 1%float); (1, 2%float)]))
  = [1; 1] /\
  strictly_ascending
    (_counts (set_counts (postings_data_new 7) [(1, 1%float); (1, 2%float)]))
  = false.
Proof. split; reflexivity. Qed.

(** ** More on records as finite maps *)

Lemma assoc_app (k : Z) (l l' : count_t) :
  assoc k (l ++ l') = match assoc k l with Some x => Some x | None => assoc k l' end.
Proof.
  induction l as [| a l IH]; cbn [assoc app]; [reflexivity |].
  destruct (a.1 =? k); [reflexivity | exact IH].
Qed.

Lemma assoc_Some_elem_of (k : Z) (w : float) (l : count_t) :
  NoDup (keys l) -> (assoc k l = Some w <-> (k, w) ∈ l).
Proof.
  intros Hnd. split.
  - intros H. apply assoc_Some_lookup in H as [j Hj].
    apply list_elem_of_lookup. eauto.
  - intros H. apply list_elem_of_lookup in H as [j Hj].
    exact (assoc_lookup_nodup l Hnd j k w Hj).
Qed.

Lemma assoc_perm (k : Z) (l l' : count_t) :
  NoDup (keys l) -> l ≡ₚ l' -> assoc k l = assoc k l'.
Proof.
  intros Hnd Hp.
  assert (Hnd' : NoDup (keys l')) by (rewrite <- (keys_perm _ _ Hp); exact Hnd).
  destruct (assoc k l) as [w |] eqn:E.
  - symmetry. apply assoc_Some_elem_of; [exact Hnd' |].
    rewrite <- Hp. apply assoc_Some_elem_of; assumption.
  - symmetry. apply assoc_None_keys. rewrite <- (keys_perm _ _ Hp).
    apply assoc_None_keys. exact E.
Qed.

Lemma strictly_ascending_sorted (l : count_t) :
  strictly_ascending l = true -> StronglySorted key_le l.
Proof.
  induction l as [| a l IH]; intros Hs; [constructor |].
  apply strictly_ascending_cons in Hs as [Hs Ha].
  constructor; [exact (IH Hs) |].
  eapply Forall_impl; [exact Ha |]. unfold key_le. cbn. intros; lia.
Qed.

(** Two strictly ascending lists that hold the same weight for every key
    are the same list. *)
Lemma assoc_ext (l l' : count_t) :
  strictly_ascending l = true -> strictly_ascending l' = true ->
  (forall k : Z, assoc k l = assoc k l') -> l = l'.
Proof.
  intros Hs Hs' Hext.
  pose proof (strictly_ascending_NoDup l Hs) as Hnd.
  pose proof (strictly_ascending_NoDup l' Hs') as Hnd'.
  apply sorted_perm_unique; try (apply strictly_ascending_sorted; assumption);
    [exact Hnd |].
  apply NoDup_Permutation.
  - exact (NoDup_fmap_1 fst l Hnd).
  - exact (NoDup_fmap_1 fst l' Hnd').
  - intros [k w]. rewrite <- !assoc_Some_elem_of by assumption.
    rewrite Hext. reflexivity.
Qed.

Lemma strictly_ascending_keys (l l' : count_t) :
  keys l = keys l' -> strictly_ascending l = strictly_ascending l'.
Proof.
  revert l'. induction l as [| a l IH]; intros [| a' l'] Hk; try discriminate;
    [reflexivity |].
  cbn [keys map] in Hk. injection Hk as Ha Hk.
  cbn [strictly_ascending].
  destruct l as [| q l0], l' as [| q' l0']; try discriminate; [reflexivity |].
  rewrite (IH (q' :: l0') Hk). cbn [keys map] in Hk. injection Hk as Hq _.
  rewrite Ha, Hq. reflexivity.
Qed.

Lemma keys_insert_same (l : count_t) (i : nat) (q : pair_t) (w : float) :
  l !! i = Some q -> keys (<[i := (q.1, w)]> l) = keys l.
Proof.
  intros Hq. unfold keys. rewrite list_fmap_insert. cbn [fst].
  apply list_insert_id. rewrite list_lookup_fmap, Hq. reflexivity.
Qed.

Lemma assoc_insert_same (l : count_t) (i : nat) (q : pair_t) (w : float) (k : Z) :
  NoDup (keys l) -> l !! i = Some q ->
  assoc k (<[i := (q.1, w)]> l) = if q.1 =? k then Some w else assoc k l.
Proof.
  intros Hnd Hq.
  assert (Hnd' : NoDup (keys (<[i := (q.1, w)]> l)))
    by (rewrite (keys_insert_same l i q w Hq); exact Hnd).
  assert (Hi : (i < length l)%nat) by (eapply lookup_lt_Some; exact Hq).
  destruct (Z.eqb_spec q.1 k) as [E | N].
  - apply (assoc_lookup_nodup _ Hnd' i). rewrite list_lookup_insert_eq by lia.
    rewrite E. reflexivity.
  - destruct (assoc k l) as [x |] eqn:E.
    + apply assoc_Some_lookup in E as [j Hj].
      apply (assoc_lookup_nodup _ Hnd' j).
      rewrite list_lookup_insert_ne; [exact Hj |].
      intros ->. rewrite Hq in Hj. injection Hj as ->. cbn in N. congruence.
    + apply assoc_None_keys. rewrite (keys_insert_same l i q w Hq).
      apply assoc_None_keys. exact E.
Qed.

Lemma sum_opt_None_r (x : option float) : sum_opt x None = x.
Proof. destruct x; reflexivity. Qed.

Lemma sum_opt_comm (x y : option float) : sum_opt x y = sum_opt y x.
Proof.
  destruct x as [u |], y as [v |]; cbn; try reflexivity.
  rewrite double_add_comm. reflexivity.
Qed.

(** ** merge_with *)

Lemma merge_inv_init (orig : count_t) :
  strictly_ascending orig = true -> merge_inv orig [] orig.
Proof.
  intros Hs. unfold merge_inv. repeat split.
  - lia.
  - rewrite take_ge by lia. reflexivity.
  - rewrite drop_ge by lia. intros q Hq. apply elem_of_nil in Hq. destruct Hq.
  - apply strictly_ascending_NoDup. exact Hs.
  - intros k. cbn [assoc]. rewrite sum_opt_None_r. reflexivity.
Qed.

Lemma keys_app (l l' : count_t) : keys (l ++ l') = keys l ++ keys l'.
Proof. unfold keys. apply fmap_app. Qed.

Lemma merge_inv_push (orig done cs : count_t) (p : pair_t) :
  merge_inv orig done cs -> p.1 ∉ keys done ->
  assoc p.1 (take (length orig) cs) = None ->
  merge_inv orig (done ++ [p]) (cs ++ [p]).
Proof.
  intros (Hlen & Hk & Hdrop & Hnd & Hassoc) Hp Hnone.
  assert (Hpcs : p.1 ∉ keys cs).
  { rewrite <- (take_drop (length orig) cs), keys_app, elem_of_app.
    intros [Hin | Hin].
    - apply assoc_None_keys in Hnone. contradiction.
    - apply list_elem_of_fmap in Hin as (q & Hq1 & Hq2).
      apply Hp. rewrite Hq1. apply Hdrop. exact Hq2. }
  unfold merge_inv. repeat split.
  - rewrite length_app. lia.
  - rewrite take_app_le by lia. exact Hk.
  - rewrite drop_app_le by lia. intros q Hq.
    rewrite keys_app, elem_of_app.
    apply elem_of_app in Hq as [Hq | Hq].
    + left. apply Hdrop. exact Hq.
    + right. apply list_elem_of_singleton in Hq as ->. cbn. apply list_elem_of_here.
  - rewrite keys_app. apply NoDup_app. repeat split.
    + exact Hnd.
    + intros x Hx Hx'. cbn in Hx'. apply list_elem_of_singleton in Hx' as ->.
      contradiction.
    + cbn. apply NoDup_singleton.
  - intros k. rewrite !assoc_app, Hassoc. cbn [assoc].
    destruct (Z.eqb_spec p.1 k) as [<- | N].
    + assert (E1 : assoc p.1 done = None) by (apply assoc_None_keys; exact Hp).
      assert (E2 : assoc p.1 cs = None) by (apply assoc_None_keys; exact Hpcs).
      rewrite Hassoc, E1 in E2. rewrite E1.
      destruct (assoc p.1 orig); [discriminate | reflexivity].
    + destruct (assoc k orig), (assoc k done); reflexivity.
Qed.

Lemma merge_inv_add (orig done cs : count_t) (p q : pair_t) (it : nat) :
  merge_inv orig done cs -> p.1 ∉ keys done ->
  (it < length orig)%nat -> cs !! it = Some q -> q.1 = p.1 ->
  merge_inv orig (done ++ [p]) (<[it := (q.1, (q.2 + p.2)%float)]> cs).
Proof.
  intros (Hlen & Hk & Hdrop & Hnd & Hassoc) Hp Hit Hq Hqp.
  unfold merge_inv. repeat split.
  - rewrite length_insert. exact Hlen.
  - rewrite take_insert_lt by lia.
    rewrite keys_insert_same; [exact Hk |].
    rewrite lookup_take_lt by lia. exact Hq.
  - rewrite drop_insert_lt by lia. intros x Hx.
    rewrite keys_app, elem_of_app. left. apply Hdrop. exact Hx.
  - rewrite keys_insert_same by exact Hq. exact Hnd.
  - intros k. rewrite (assoc_insert_same cs it q _ k Hnd Hq).
    rewrite assoc_app. cbn [assoc]. rewrite Hqp.
    assert (E1 : assoc p.1 done = None) by (apply assoc_None_keys; exact Hp).
    destruct (Z.eqb_spec p.1 k) as [<- | N].
    + assert (E2 : assoc p.1 cs = Some q.2).
      { apply (assoc_lookup_nodup cs Hnd it). rewrite Hq, <- Hqp.
        destruct q; reflexivity. }
      rewrite Hassoc, E1, sum_opt_None_r in E2. rewrite E1, E2. reflexivity.
    + rewrite Hassoc. destruct (assoc k orig), (assoc k done); reflexivity.
Qed.

(** One turn of the loop: the pair is added to the weight of its key when
    the key is among the original pairs, and pushed at the back otherwise. *)
Lemma merge_step_inv (orig done cs : count_t) (p : pair_t) :
  strictly_ascending orig = true ->
  merge_inv orig done cs -> p.1 ∉ keys done ->
  merge_inv orig (done ++ [p]) (merge_step (length orig) cs p).
Proof.
  intros Hso Hinv Hp.
  pose proof Hinv as (Hlen & Hk & Hdrop & Hnd & Hassoc).
  assert (Hs : strictly_ascending (take (length orig) cs) = true)
    by (rewrite (strictly_ascending_keys _ _ Hk); exact Hso).
  destruct (lower_bound_assoc cs p.1 (length orig) Hlen Hs) as [Hle Ha].
  unfold merge_step.
  set (it := lower_bound cs 0 (length orig) p.1) in *.
  destruct (Nat.eqb_spec it (length cs)) as [E | N].
  - apply merge_inv_push; [exact Hinv | exact Hp |].
    rewrite Ha. destruct (decide (it < length orig)%nat); [lia | reflexivity].
  - destruct (cs !! it) as [q |] eqn:Hq.
    + destruct (Z.eqb_spec q.1 p.1) as [Eq | Nq]; cbn [negb].
      * destruct (decide (it < length orig)%nat) as [Hit | Hit].
        -- apply merge_inv_add; assumption.
        -- exfalso. apply Hp. rewrite <- Eq. apply Hdrop.
           apply list_elem_of_lookup. exists 0%nat.
           rewrite lookup_drop, Nat.add_0_r.
           replace (length orig) with it by lia. exact Hq.
      * apply merge_inv_push; [exact Hinv | exact Hp |].
        rewrite Ha. destruct (decide (it < length orig)%nat); [| reflexivity].
        destruct (Z.eqb_spec q.1 p.1); [contradiction | reflexivity].
    + apply merge_inv_push; [exact Hinv | exact Hp |].
      rewrite Ha. destruct (decide (it < length orig)%nat); reflexivity.
Qed.

Lemma merge_fold_inv (orig : count_t) :
  strictly_ascending orig = true ->
  forall rest done cs : count_t,
    merge_inv orig done cs -> NoDup (keys (done ++ rest)) ->
    merge_inv orig (done ++ rest) (foldl (merge_step (length orig)) cs rest).
Proof.
  intros Hso. induction rest as [| p rest IH]; intros done cs Hinv Hnd.
  - rewrite app_nil_r. exact Hinv.
  - cbn [foldl].
    replace (done ++ p :: rest) with ((done ++ [p]) ++ rest) in *
      by (rewrite <- app_assoc; reflexivity).
    apply IH; [| exact Hnd].
    apply merge_step_inv; [exact Hso | exact Hinv |].
    rewrite !keys_app in Hnd. apply NoDup_app in Hnd as (Hnd & _ & _).
    apply NoDup_app in Hnd as (_ & Hdisj & _).
    intros Hin. apply (Hdisj _ Hin). cbn. apply list_elem_of_here.
Qed.

(** [merge_with] on two records with strictly ascending counts: the result
    is strictly ascending, and holds for every key the sum of the weights
    the two records hold for it. *)
Lemma merge_with_assoc (a b : postings_data) :
  strictly_ascending (_counts a) = true ->
  strictly_ascending (_counts b) = true ->
  strictly_ascending (_counts (merge_with a b)) = true /\
  (forall k : Z,
      assoc k (_counts (merge_with a b))
      = sum_opt (assoc k (_counts a)) (assoc k (_counts b))).
Proof.
  intros Ha Hb. unfold merge_with. cbn [_counts].
  pose proof (merge_fold_inv (_counts a) Ha (_counts b) [] (_counts a)
                (merge_inv_init _ Ha) (strictly_ascending_NoDup _ Hb))
    as (_ & _ & _ & Hnd & Hassoc).
  cbn [app] in Hassoc.
  set (cs := foldl (merge_step (length (_counts a))) (_counts a) (_counts b)) in *.
  split.
  - apply sorted_nodup_strictly_ascending; [apply sort_counts_sorted |].
    rewrite (keys_perm _ _ (sort_counts_perm cs)). exact Hnd.
  - intros k. rewrite <- Hassoc. symmetry.
    apply assoc_perm; [exact Hnd |]. symmetry. apply sort_counts_perm.
Qed.

Lemma merge_with_comm (a b : postings_data) :
  strictly_ascending (_counts a) = true ->
  strictly_ascending (_counts b) = true ->
  _counts (merge_with a b) = _counts (merge_with b a).
Proof.
  intros Ha Hb.
  destruct (merge_with_assoc a b Ha Hb) as [Hab Eab].
  destruct (merge_with_assoc b a Hb Ha) as [Hba Eba].
  apply assoc_ext; [exact Hab | exact Hba |].
  intros k. rewrite Eab, Eba. apply sum_opt_comm.
Qed.

Lemma weights_associate_at (a b c : count_t) (k : Z) (x y z : float) :
  weights_associate a b c = true ->
  assoc k a = Some x -> assoc k b = Some y -> assoc k c = Some z ->
  ((x + y) + z)%float = (x + (y + z))%float.
Proof.
  intros Hw Hx Hy Hz. unfold weights_associate in Hw.
  rewrite forallb_forall in Hw.
  apply assoc_Some_lookup in Hx as [j Hj].
  assert (Hin : In (k, x) a).
  { apply list_elem_of_In. apply list_elem_of_lookup. eauto. }
  specialize (Hw _ Hin). cbn [fst snd] in Hw. rewrite Hy, Hz in Hw.
  apply FloatAxioms.Leibniz.eqb_spec in Hw. exact Hw.
Qed.

Lemma merge_with_assoc3 (a b c : postings_data) :
  strictly_ascending (_counts a) = true ->
  strictly_ascending (_counts b) = true ->
  strictly_ascending (_counts c) = true ->
  weights_associate (_counts a) (_counts b) (_counts c) = true ->
  _counts (merge_with (merge_with a b) c) = _counts (merge_with a (merge_with b c)).
Proof.
  intros Ha Hb Hc Hw.
  destruct (merge_with_assoc a b Ha Hb) as [Hab Eab].
  destruct (merge_with_assoc b c Hb Hc) as [Hbc Ebc].
  destruct (merge_with_assoc (merge_with a b) c Hab Hc) as [Hl El].
  destruct (merge_with_assoc a (merge_with b c) Ha Hbc) as [Hr Er].
  apply assoc_ext; [exact Hl | exact Hr |].
  intros k. rewrite El, Er, Eab, Ebc.
  destruct (assoc k (_counts a)) as [x |] eqn:Ex,
           (assoc k (_counts b)) as [y |] eqn:Ey,
           (assoc k (_counts c)) as [z |] eqn:Ez; cbn; try reflexivity.
  f_equal. exact (weights_associate_at _ _ _ k x y z Hw Ex Ey Ez).
Qed.

(** C5, as amended: for records whose counts are each strictly ascending,
    [merge_with] keeps the receiver's primary key and produces the union of
    the two pair sequences, sorted strictly ascending, where a key held by
    both has the sum of its two weights; merging is commutative; and it is
    associative whenever, for each key held by all three records, adding its
    three weights gives the same double in either grouping.  Merging
    {p=7, [(1,1),(3,2)]} with {p=7, [(2,4),(3,5)]} gives
    {p=7, [(1,1),(2,4),(3,7)]}. *)
Theorem merge_with_union (a b c : postings_data) :
  strictly_ascending (_counts a) = true ->
  strictly_ascending (_counts b) = true ->
  strictly_ascending (_counts c) = true ->
  weights_associate (_counts a) (_counts b) (_counts c) = true ->
  _p_id (merge_with a b) = _p_id a /\
  strictly_ascending (_counts (merge_with a b)) = true /\
  (forall k : Z,
      assoc k (_counts (merge_with a b))
      = sum_opt (assoc k (_counts a)) (assoc k (_counts b))) /\
  _counts (merge_with a b) = _counts (merge_with b a) /\
  _counts (merge_with (merge_with a b) c)
  = _counts (merge_with a (merge_with b c)) /\
  merge_with merge_left merge_right = merge_result.
Proof.
  intros Ha Hb Hc Hw.
  destruct (merge_with_assoc a b Ha Hb) as [Hab Eab].
  split; [reflexivity |].
  split; [exact Hab |].
  split; [exact Eab |].
  split; [exact (merge_with_comm a b Ha Hb) |].
  split; [exact (merge_with_assoc3 a b c Ha Hb Hc Hw) |].
  reflexivity.
Qed.

Lemma merge_with_union_witness :
  _p_id (merge_with merge_left merge_right) = _p_id merge_left /\
  strictly_ascending (_counts (merge_with merge_left merge_right)) = true /\
  (forall k : Z,
      assoc k (_counts (merge_with merge_left merge_right))
      = sum_opt (assoc k (_counts merge_left)) (assoc k (_counts merge_right))) /\
  _counts (merge_with merge_left merge_right)
  = _counts (merge_with merge_right merge_left) /\
  _counts (merge_with (merge_with merge_left merge_right) merge_result)
  = _counts (merge_with merge_left (merge_with merge_right merge_result)) /\
  merge_with merge_left merge_right = merge_result.
Proof.
  apply (merge_with_union merge_left merge_right merge_result); reflexivity.
Defined.

(** C5, counterexample: three valid records hold the key 1 with the weights
    0.1, 0.2 and 0.3; merged from the left the key gets
    0.60000000000000009, merged from the right 0.59999999999999998. *)
Lemma merge_with_not_associative :
  valid_record (single one_tenth) = true /\
  valid_record (single two_tenths) = true /\
  valid_record (single three_tenths) = true /\
  _counts (merge_with (merge_with (single one_tenth) (single two_tenths))
                      (single three_tenths))
  = [(1, 0x1.3333333333334p-1%float)] /\
  _counts (merge_with (single one_tenth)
                      (merge_with (single two_tenths) (single three_tenths)))
  = [(1, 0x1.3333333333333p-1%float)] /\
  PrimFloat.eqb 0x1.3333333333334p-1 0x1.3333333333333p-1 = false.
Proof. repeat split; reflexivity. Qed.

(** ** merge_with on objects *)

Lemma merge_step_at_distinct (h : store) (self other n i : nat)
    (s o : postings_data) (p : pair_t) :
  self <> other ->
  h !! self = Some s -> h !! other = Some o -> _counts o !! i = Some p ->
  merge_step_at self other n h i
  = Some (<[self := {| _p_id := _p_id s;
                       _counts := merge_step n (_counts s) p |}]> h).
Proof.
  intros Hne Hs Ho Hp. unfold merge_step_at, merge_step.
  rewrite Ho, Hp, Hs.
  destruct (decide (self = other)) as [E | _]; [contradiction |].
  destruct (lower_bound (_counts s) 0 n p.1 =? length (_counts s))%nat;
    [reflexivity |].
  destruct (_counts s !! lower_bound (_counts s) 0 n p.1) as [q |];
    [| reflexivity].
  destruct (negb (q.1 =? p.1)); reflexivity.
Qed.

Lemma merge_loop_at_distinct (self other n : nat) (o : postings_data) :
  self <> other ->
  forall (rest pre : count_t) (h : store) (s : postings_data),
    _counts o = pre ++ rest ->
    h !! self = Some s -> h !! other = Some o ->
    merge_loop_at self other n (seq (length pre) (length rest)) h
    = Some (<[self := {| _p_id := _p_id s;
                         _counts := foldl (merge_step n) (_counts s) rest |}]> h).
Proof.
  intros Hne. induction rest as [| p rest IH]; intros pre h s Ho Hs Hoth.
  - cbn. f_equal. symmetry. apply insert_id. rewrite Hs. destruct s; reflexivity.
  - cbn [length seq merge_loop_at foldl].
    rewrite (merge_step_at_distinct h self other n (length pre) s o p Hne Hs Hoth)
      by (rewrite Ho; apply list_lookup_middle; reflexivity).
    replace (S (length pre)) with (length (pre ++ [p]))
      by (rewrite length_app; cbn; lia).
    rewrite (IH (pre ++ [p]) _ {| _p_id := _p_id s;
                                  _counts := merge_step n (_counts s) p |}).
    + cbn [_p_id _counts]. rewrite insert_insert_eq. reflexivity.
    + rewrite <- app_assoc. exact Ho.
    + apply lookup_insert_eq.
    + rewrite lookup_insert_ne by exact Hne. exact Hoth.
Qed.

(** With the argument an object other than the receiver, [merge_with] on
    the store is [merge_with] on the two records. *)
Lemma merge_with_at_distinct (h : store) (self other : nat)
    (s o : postings_data) :
  self <> other -> h !! self = Some s -> h !! other = Some o ->
  merge_with_at h self other = Some (<[self := merge_with s o]> h).
Proof.
  intros Hne Hs Ho. unfold merge_with_at. rewrite Hs, Ho.
  rewrite (merge_loop_at_distinct self other _ o Hne (_counts o) [] h s
             eq_refl Hs Ho).
  rewrite lookup_insert_eq. cbn [_p_id _counts].
  rewrite insert_insert_eq. reflexivity.
Qed.

(** No turn of the loop changes the primary key of the receiver, also when
    the argument is the receiver itself. *)
Lemma merge_step_at_pid (h h' : store) (self other n i : nat)
    (s : postings_data) :
  h !! self = Some s -> merge_step_at self other n h i = Some h' ->
  exists s', h' !! self = Some s' /\ _p_id s' = _p_id s.
Proof.
  intros Hs. unfold merge_step_at.
  destruct (h !! other) as [o |]; [| discriminate].
  destruct (_counts o !! i) as [p |]; [| discriminate].
  rewrite Hs.
  assert (Hpush :
            (if decide (self = other) then None
             else Some (<[self := {| _p_id := _p_id s;
                                     _counts := _counts s ++ [p] |}]> h))
            = Some h' ->
            exists s', h' !! self = Some s' /\ _p_id s' = _p_id s).
  { destruct (decide (self = other)); [discriminate |].
    intros [= <-]. eexists. rewrite lookup_insert_eq. split; reflexivity. }
  destruct (lower_bound (_counts s) 0 n p.1 =? length (_counts s))%nat;
    [exact Hpush |].
  destruct (_counts s !! lower_bound (_counts s) 0 n p.1) as [q |];
    [| exact Hpush].
  destruct (negb (q.1 =? p.1)); [exact Hpush |].
  intros [= <-]. eexists. rewrite lookup_insert_eq. split; reflexivity.
Qed.

Lemma merge_loop_at_pid (self other n : nat) (idxs : list nat) :
  forall (h h' : store) (s : postings_data),
    h !! self = Some s -> merge_loop_at self other n idxs h = Some h' ->
    exists s', h' !! self = Some s' /\ _p_id s' = _p_id s.
Proof.
  induction idxs as [| i idxs IH]; intros h h' s Hs H.
  - cbn in H. injection H as <-. eauto.
  - cbn [merge_loop_at] in H.
    destruct (merge_step_at self other n h i) as [h1 |] eqn:E; [| discriminate].
    destruct (merge_step_at_pid h h1 self other n i s Hs E) as (s1 & Hs1 & Hp1).
    destruct (IH h1 h' s1 Hs1 H) as (s' & Hs' & Hp'). exists s'. split; [exact Hs' | congruence].
Qed.

Lemma merge_with_at_pid (h h' : store) (self other : nat) (s : postings_data) :
  h !! self = Some s -> merge_with_at h self other = Some h' ->
  exists s', h' !! self = Some s' /\ _p_id s' = _p_id s.
Proof.
  intros Hs. unfold merge_with_at. rewrite Hs.
  destruct (h !! other) as [o |]; [| discriminate].
  destruct (merge_loop_at self other (length (_counts s))
              (seq 0 (length (_counts o))) h) as [h1 |] eqn:E; [| discriminate].
  destruct (merge_loop_at_pid _ _ _ _ h h1 s Hs E) as (s1 & Hs1 & Hp1).
  rewrite Hs1. intros [= <-]. eexists. rewrite lookup_insert_eq.
  split; [reflexivity | exact Hp1].
Qed.

(** C10, as amended: [merge_with(other)] with [other] an object other than
    the receiver returns, leaves [other] as it was (primary key and counts)
    and leaves every object but the receiver as it was, and the receiver
    keeps its primary key; the receiver keeps its primary key also when it
    is merged with itself. *)
Theorem merge_with_at_frame (h : store) (self other : nat)
    (s o : postings_data) :
  h !! self = Some s -> h !! other = Some o -> self <> other ->
  (exists h' s',
      merge_with_at h self other = Some h' /\
      h' !! other = Some o /\
      h' !! self = Some s' /\ _p_id s' = _p_id s /\
      (forall x : nat, x <> self -> h' !! x = h !! x)) /\
  (forall h1 : store,
      merge_with_at h self self = Some h1 ->
      exists s1, h1 !! self = Some s1 /\ _p_id s1 = _p_id s).
Proof.
  intros Hs Ho Hne. split.
  - exists (<[self := merge_with s o]> h), (merge_with s o).
    split; [exact (merge_with_at_distinct h self other s o Hne Hs Ho) |].
    split; [rewrite lookup_insert_ne by exact Hne; exact Ho |].
    split; [apply lookup_insert_eq |].
    split; [reflexivity |].
    intros x Hx. apply lookup_insert_ne. congruence.
  - intros h1 H1. exact (merge_with_at_pid h h1 self self s Hs H1).
Qed.

Lemma merge_with_at_frame_witness :
  (exists h' s',
      merge_with_at {[ 0%nat := merge_left; 1%nat := merge_right ]} 0 1 = Some h' /\
      h' !! 1%nat = Some merge_right /\
      h' !! 0%nat = Some s' /\ _p_id s' = _p_id merge_left /\
      (forall x : nat, x <> 0%nat ->
         h' !! x = ({[ 0%nat := merge_left; 1%nat := merge_right ]} : store) !! x)) /\
  (forall h1 : store,
      merge_with_at {[ 0%nat := merge_left; 1%nat := merge_right ]} 0 0 = Some h1 ->
      exists s1, h1 !! 0%nat = Some s1 /\ _p_id s1 = _p_id merge_left).
Proof.
  apply (merge_with_at_frame {[ 0%nat := merge_left; 1%nat := merge_right ]}
           0 1 merge_left merge_right).
  - reflexivity.
  - reflexivity.
  - lia.
Defined.

(** C10, counterexample: a record merged with itself.  The call
    [a.merge_with(a)] on {p=7, [(1,1),(3,2)]} leaves the argument, which is
    [a], with the counts [(1,2),(3,4)]. *)
Lemma merge_with_itself_changes_argument :
  merge_with_at {[ 0%nat := merge_left ]} 0 0
  = Some {[ 0%nat := {| _p_id := 7;
                        _counts := [(1, 2%float); (3, 4%float)] |} ]}.
Proof. reflexivity. Qed.

(** ** The postings file *)

(** C7: [find_stream pk] is a stream exactly when [pk] is below the length
    of the offset table, and nothing otherwise; it reads the offset table
    only, no byte of the postings data; and [find pk] with [pk] at or beyond
    the length of the offset table returns, without an error, the record of
    [pk] with no pairs. *)
Theorem find_stream_find_bounds
    (stream_pairs : postings_stream -> count_t * list access)
    (pf : postings_file) (pk : Z) :
  0 <= pk ->
  (pk < Z.of_nat (length (byte_locations_ pf)) ->
   exists off : Z,
     byte_locations_ pf !! Z.to_nat pk = Some off /\
     (find_stream pf pk).1
     = Some {| stream_postings := postings_ pf; stream_start := off |}) /\
  (Z.of_nat (length (byte_locations_ pf)) <= pk ->
   (find_stream pf pk).1 = None) /\
  forallb (fun a => negb (is_postings_byte a)) (find_stream pf pk).2 = true /\
  (Z.of_nat (length (byte_locations_ pf)) <= pk ->
   find stream_pairs pf pk = (Some (postings_data_new pk), [IndexSize])).
Proof.
  intros Hpk. unfold find, find_stream.
  destruct (Z.ltb_spec pk (Z.of_nat (length (byte_locations_ pf)))) as [Hlt | Hge].
  - destruct (lookup_lt_is_Some_2 (byte_locations_ pf) (Z.to_nat pk)) as [off Hoff];
      [lia |].
    rewrite Hoff. cbn [fst snd]. repeat split.
    + intros _. exists off. split; reflexivity.
    + intros Hge. lia.
    + intros Hge. lia.
  - cbn [fst snd]. repeat split.
    + intros Hlt. lia.
Qed.

Lemma find_stream_find_bounds_witness :
  (2 < Z.of_nat (length (byte_locations_ two_key_file)) ->
   exists off : Z,
     byte_locations_ two_key_file !! Z.to_nat 2 = Some off /\
     (find_stream two_key_file 2).1
     = Some {| stream_postings := postings_ two_key_file; stream_start := off |}) /\
  (Z.of_nat (length (byte_locations_ two_key_file)) <= 2 ->
   (find_stream two_key_file 2).1 = None) /\
  forallb (fun a => negb (is_postings_byte a)) (find_stream two_key_file 2).2 = true /\
  (Z.of_nat (length (byte_locations_ two_key_file)) <= 2 ->
   find no_pairs two_key_file 2 = (Some (postings_data_new 2), [IndexSize])).
Proof. apply (find_stream_find_bounds no_pairs two_key_file 2). lia. Defined.

(** In range, [find_stream] hands out the stream at the offset of [pk]. *)
Example find_stream_in_range :
  find_stream two_key_file 1
  = (Some {| stream_postings := [0; 0; 0; 0]; stream_start := 2 |},
     [IndexSize; IndexAt 1]).
Proof. reflexivity. Qed.

(** ** The compress pass *)

(** C6: the uncompressed file holds a record for document 1 only, of two
    documents.  [compress] writes that record and nothing else: no
    placeholder is written for document 0, the record of document 1 is the
    first one written, so slot 0 of the offset table addresses it, and the
    table is not dense. *)
Theorem compress_leaves_out_key_zero :
  compress [doc_one] 2 = [doc_one] /\
  (postings_data_new 0 ∉ compress [doc_one] 2) /\
  slot (compress [doc_one] 2) 0 = Some doc_one /\
  slot (compress [doc_one] 2) 1 = None /\
  dense (compress [doc_one] 2) 2 = false.
Proof.
  repeat split; try reflexivity.
  intros H. apply list_elem_of_singleton in H. discriminate.
Qed.

(** Nor is a placeholder written after the last record of the input. *)
Example compress_leaves_out_trailing_keys :
  compress [doc_zero] 3 = [doc_zero] /\ dense (compress [doc_zero] 3) 3 = false.
Proof. split; reflexivity. Qed.

(** A gap between two records of the input is filled. *)
Example compress_fills_inner_gap :
  compress [doc_zero; doc_three] 4
  = [doc_zero; postings_data_new 1; postings_data_new 2; doc_three] /\
  dense (compress [doc_zero; doc_three] 4) 4 = true.
Proof. split; reflexivity. Qed.

(** Past its first turn the loop of [compress] keeps the records written
    so far in step with the primary keys: the k-th record written is the one
    of key k. *)
Lemma compress_loop_keys (input : list postings_data) :
  forall (last : Z) (out : list postings_data),
    0 <= last -> keys_go_up last input ->
    map primary_key out = seqZ 0 (last + 1) ->
    map primary_key (compress_loop input last out)
    = seqZ 0 (final_key last input + 1).
Proof.
  induction input as [| r input IH]; intros last out Hlast Hup Hout.
  - exact Hout.
  - destruct Hup as [Hr Hup]. cbn [compress_loop final_key].
    apply IH; [lia | exact Hup |].
    rewrite !map_app, Hout. unfold gap_fill.
    rewrite wrap64_small by lia.
    rewrite map_map. cbn [primary_key postings_data_new _p_id map].
    rewrite map_id.
    replace (primary_key r + 1)
      with ((last + 1) + ((primary_key r - (last + 1)) + 1)) by lia.
    rewrite (seqZ_app 0 (last + 1)) by lia.
    rewrite (seqZ_app (0 + (last + 1))) by lia.
    rewrite <- app_assoc. do 2 f_equal.
    replace (0 + (last + 1) + (primary_key r - (last + 1))) with (primary_key r)
      by lia.
    reflexivity.
Qed.

Lemma dense_of_keys (out : list postings_data) (num_docs : Z) :
  map primary_key out = seqZ 0 num_docs -> dense out num_docs = true.
Proof.
  intros Hk. unfold dense. apply forallb_forall. intros k Hin.
  apply list_elem_of_In, elem_of_seqZ in Hin. unfold slot.
  destruct (Z.ltb_spec k 0) as [? | _]; [lia |].
  assert (Hl : map primary_key out !! Z.to_nat k = Some k).
  { rewrite Hk, lookup_seqZ_lt by lia. f_equal. lia. }
  change (map primary_key out) with (primary_key <$> out) in Hl.
  rewrite list_lookup_fmap in Hl.
  destruct (out !! Z.to_nat k) as [r |]; [| discriminate].
  cbn in Hl. injection Hl as ->. apply Z.eqb_refl.
Qed.

(** When the input starts with a record for key 0, has ascending primary
    keys and ends with the record for key [num_docs - 1], the gaps between
    its records are filled and the offset table is dense. *)
Lemma compress_dense_between_records (r0 : postings_data)
    (input : list postings_data) (num_docs : Z) :
  primary_key r0 = 0 -> keys_go_up 0 input ->
  final_key 0 input + 1 = num_docs ->
  dense (compress (r0 :: input) num_docs) num_docs = true.
Proof.
  intros H0 Hup Hn. apply dense_of_keys. unfold compress.
  cbn [compress_loop]. rewrite H0. rewrite <- Hn.
  apply compress_loop_keys; [lia | exact Hup |].
  unfold gap_fill. rewrite wrap64_small by (unfold uint64_modulus; lia).
  rewrite seqZ_nil by lia. cbn [map app]. rewrite H0. reflexivity.
Qed.

Lemma compress_dense_between_records_witness :
  dense (compress (doc_zero :: [doc_three]) 4) 4 = true.
Proof.
  apply (compress_dense_between_records doc_zero [doc_three] 4).
  - reflexivity.
  - cbn. unfold uint64_modulus. lia.
  - reflexivity.
Defined.

(** ** increase_count *)

Lemma strictly_ascending_sorted_lt (l : count_t) :
  strictly_ascending l = true <-> StronglySorted key_lt l.
Proof.
  split.
  - induction l as [| a l IH]; intros Hs; [constructor |].
    apply strictly_ascending_cons in Hs as [Hs Ha].
    constructor; [exact (IH Hs) | exact Ha].
  - induction l as [| a l IH]; intros Hs; [reflexivity |].
    apply StronglySorted_cons in Hs as [Ha Hs].
    cbn [strictly_ascending]. destruct l as [| q l']; [reflexivity |].
    apply andb_true_iff. split; [| exact (IH Hs)].
    apply Z.ltb_lt. apply Forall_cons in Ha as [Haq _]. exact Haq.
Qed.

(** Putting a pair between the pairs with smaller keys and the pairs with
    larger keys keeps the order and adds one key to the map. *)
Lemma insert_between (l1 l2 : count_t) (k : Z) (a : float) :
  (forall x : pair_t, x ∈ l1 -> x.1 < k) ->
  (forall x : pair_t, x ∈ l2 -> k < x.1) ->
  strictly_ascending (l1 ++ l2) = true ->
  strictly_ascending (l1 ++ (k, a) :: l2) = true /\
  assoc k (l1 ++ l2) = None /\
  (forall k' : Z,
      assoc k' (l1 ++ (k, a) :: l2)
      = if k =? k' then Some a else assoc k' (l1 ++ l2)).
Proof.
  intros H1 H2 Hs.
  assert (N1 : assoc k l1 = None).
  { apply assoc_None_keys. intros Hin.
    apply list_elem_of_fmap in Hin as (x & Hx & Hin).
    specialize (H1 x Hin). lia. }
  assert (N2 : assoc k l2 = None).
  { apply assoc_None_keys. intros Hin.
    apply list_elem_of_fmap in Hin as (x & Hx & Hin).
    specialize (H2 x Hin). lia. }
  apply strictly_ascending_sorted_lt in Hs.
  apply StronglySorted_app in Hs as (H12 & Hs1 & Hs2).
  split; [| split].
  - apply strictly_ascending_sorted_lt. apply StronglySorted_app_2.
    + intros x1 x2 Hx1 Hx2. unfold key_lt.
      apply elem_of_cons in Hx2 as [-> | Hx2].
      * cbn. exact (H1 x1 Hx1).
      * specialize (H1 x1 Hx1). specialize (H2 x2 Hx2). lia.
    + exact Hs1.
    + apply StronglySorted_cons. split; [| exact Hs2].
      apply Forall_forall. intros x Hx. unfold key_lt. cbn. exact (H2 x Hx).
  - rewrite assoc_app, N1. exact N2.
  - intros k'. rewrite !assoc_app. cbn [assoc fst snd].
    destruct (Z.eqb_spec k k') as [<- | N].
    + rewrite N1. reflexivity.
    + reflexivity.
Qed.

(** [increase_count] on a record with strictly ascending counts: the counts
    stay strictly ascending, the key asked for ends with its old weight plus
    the amount, or with the amount if it was not held, and every other key
    keeps its weight. *)
Lemma increase_count_assoc (r : postings_data) (k : Z) (a : float) :
  strictly_ascending (_counts r) = true ->
  strictly_ascending (_counts (increase_count r k a)) = true /\
  (forall k' : Z,
      assoc k' (_counts (increase_count r k a))
      = if k =? k'
        then Some (match assoc k (_counts r) with
                   | Some w => (w + a)%float
                   | None => a
                   end)
        else assoc k' (_counts r)).
Proof.
  intros Hs. unfold increase_count.
  set (cs := _counts r) in *.
  destruct (lower_bound_partition cs k (length cs)) as (Hle & Hlo & Hhi);
    [lia | rewrite take_ge by lia; exact Hs |].
  set (it := lower_bound cs 0 (length cs) k) in *.
  assert (Htake : forall x : pair_t, x ∈ take it cs -> x.1 < k).
  { intros x Hx. apply list_elem_of_lookup in Hx as [j Hj].
    assert (j < it)%nat.
    { apply lookup_lt_Some in Hj. rewrite length_take in Hj. lia. }
    rewrite lookup_take_lt in Hj by lia. exact (Hlo j x ltac:(lia) Hj). }
  assert (Hsplit : take it cs ++ drop it cs = cs) by apply take_drop.
  assert (Hins : (forall x : pair_t, x ∈ drop it cs -> k < x.1) ->
                 strictly_ascending (take it cs ++ (k, a) :: drop it cs) = true /\
                 (forall k' : Z,
                     assoc k' (take it cs ++ (k, a) :: drop it cs)
                     = if k =? k'
                       then Some (match assoc k cs with
                                  | Some w => (w + a)%float
                                  | None => a
                                  end)
                       else assoc k' cs)).
  { intros Hdrop.
    destruct (insert_between (take it cs) (drop it cs) k a Htake Hdrop)
      as (H1 & H2 & H3); [rewrite Hsplit; exact Hs |].
    rewrite Hsplit in H2, H3. rewrite H2. split; [exact H1 | exact H3]. }
  destruct (Nat.eqb_spec it (length cs)) as [E | N].
  - cbn [_counts].
    replace (cs ++ [(k, a)]) with (take it cs ++ (k, a) :: drop it cs)
      by (rewrite E, take_ge, drop_ge by lia; reflexivity).
    apply Hins. rewrite E, drop_ge by lia. intros x Hx.
    apply elem_of_nil in Hx. destruct Hx.
  - destruct (lookup_lt_is_Some_2 cs it) as [q Hq]; [lia |]. rewrite Hq.
    destruct (Z.eqb_spec q.1 k) as [Eq | Nq]; cbn [negb _counts].
    + split.
      * rewrite (strictly_ascending_keys _ cs); [exact Hs |].
        apply keys_insert_same. exact Hq.
      * intros k'.
        rewrite (assoc_insert_same cs it q _ k'
                   (strictly_ascending_NoDup _ Hs) Hq).
        rewrite Eq.
        rewrite (assoc_lookup_nodup cs (strictly_ascending_NoDup _ Hs) it k q.2)
          by (rewrite Hq, <- Eq; destruct q; reflexivity).
        reflexivity.
    + apply Hins. intros x Hx. apply list_elem_of_lookup in Hx as [j Hj].
      rewrite lookup_drop in Hj.
      assert (Hjl : (it + j < length cs)%nat) by (eapply lookup_lt_Some; exact Hj).
      destruct j as [| j].
      * rewrite Nat.add_0_r, Hq in Hj. injection Hj as <-.
        assert (k <= q.1) by (apply (Hhi it q); [lia | exact Hq]). lia.
      * assert (q.1 < x.1)
          by (apply (strictly_ascending_lookup cs Hs it (it + S j)); [lia | exact Hq | exact Hj]).
        assert (k <= q.1) by (apply (Hhi it q); [lia | exact Hq]). lia.
Qed.

(** X4: [increase_count] on a record with strictly ascending counts keeps
    the primary key and the strict order; afterwards [count] of the key is
    its former count plus the amount if the key was held and the amount if
    it was not, and [count] of every other key is as before. *)
Theorem increase_count_count (r : postings_data) (k : Z) (a : float) :
  strictly_ascending (_counts r) = true ->
  _p_id (increase_count r k a) = _p_id r /\
  strictly_ascending (_counts (increase_count r k a)) = true /\
  (k ∈ keys (_counts r) ->
   count (increase_count r k a) k = (count r k + a)%float) /\
  (k ∉ keys (_counts r) -> count (increase_count r k a) k = a) /\
  (forall k' : Z, k' <> k -> count (increase_count r k a) k' = count r k').
Proof.
  intros Hs. destruct (increase_count_assoc r k a Hs) as [Hs' Ha].
  split.
  { unfold increase_count.
    destruct (_ =? _)%nat; [reflexivity |].
    destruct (_ !! _) as [q |]; [| reflexivity].
    destruct (negb _); reflexivity. }
  split; [exact Hs' |].
  rewrite !(count_assoc _ _ Hs'). rewrite (count_assoc r k Hs).
  split; [| split].
  - intros Hin. rewrite Ha, Z.eqb_refl.
    destruct (assoc k (_counts r)) as [w |] eqn:E; [reflexivity |].
    apply assoc_None_keys in E. contradiction.
  - intros Hout. rewrite Ha, Z.eqb_refl.
    apply assoc_None_keys in Hout. rewrite Hout. reflexivity.
  - intros k' Hne. rewrite (count_assoc _ _ Hs'), (count_assoc r k' Hs), Ha.
    destruct (Z.eqb_spec k k') as [E | _]; [congruence | reflexivity].
Qed.

Lemma increase_count_count_witness :
  _p_id (increase_count merge_left 2 4) = _p_id merge_left /\
  strictly_ascending (_counts (increase_count merge_left 2 4)) = true /\
  (2 ∈ keys (_counts merge_left) ->
   count (increase_count merge_left 2 4) 2 = (count merge_left 2 + 4)%float) /\
  (2 ∉ keys (_counts merge_left) -> count (increase_count merge_left 2 4) 2 = 4%float) /\
  (forall k' : Z, k' <> 2 -> count (increase_count merge_left 2 4) k' = count merge_left k').
Proof. apply (increase_count_count merge_left 2 4). reflexivity. Defined.

Example increase_count_inserts :
  increase_count merge_left 2 4
  = {| _p_id := 7; _counts := [(1, 1%float); (2, 4%float); (3, 2%float)] |}.
Proof. reflexivity. Qed.

(** X5: on a record with strictly ascending counts, [increase_count] of a
    key by an amount leaves the same counts as [merge_with] of a record
    that holds just that key with that amount. *)
Theorem increase_count_is_merge_with (r : postings_data) (pid k : Z) (a : float) :
  strictly_ascending (_counts r) = true ->
  _counts (increase_count r k a)
  = _counts (merge_with r {| _p_id := pid; _counts := [(k, a)] |}).
Proof.
  intros Hs. destruct (increase_count_assoc r k a Hs) as [Hs' Ha].
  destruct (merge_with_assoc r {| _p_id := pid; _counts := [(k, a)] |} Hs eq_refl)
    as [Hm Em].
  apply assoc_ext; [exact Hs' | exact Hm |].
  intros k'. rewrite Ha, Em. cbn [_counts assoc fst snd].
  destruct (Z.eqb_spec k k') as [<- | N].
  - destruct (assoc k (_counts r)); reflexivity.
  - rewrite sum_opt_None_r. reflexivity.
Qed.

Lemma increase_count_is_merge_with_witness :
  _counts (increase_count merge_left 3 5)
  = _counts (merge_with merge_left {| _p_id := 9; _counts := [(3, 5%float)] |}).
Proof. apply (increase_count_is_merge_with merge_left 9 3 5). reflexivity. Defined.

Lemma increase_counts_assoc (pairs : count_t) :
  forall r : postings_data,
    strictly_ascending (_counts r) = true ->
    strictly_ascending
      (_counts (foldl (fun r p => increase_count r p.1 p.2) r pairs)) = true /\
    (forall k : Z,
        assoc k (_counts (foldl (fun r p => increase_count r p.1 p.2) r pairs))
        = add_up k (assoc k (_counts r)) pairs).
Proof.
  induction pairs as [| p pairs IH]; intros r Hs.
  - split; [exact Hs | reflexivity].
  - cbn [foldl add_up].
    destruct (increase_count_assoc r p.1 p.2 Hs) as [Hs' Ha].
    destruct (IH (increase_count r p.1 p.2) Hs') as [Hs'' Ha'].
    split; [exact Hs'' |].
    intros k. rewrite Ha', Ha. destruct (Z.eqb_spec p.1 k) as [<- | N].
    + destruct (assoc p.1 (_counts r)); reflexivity.
    + reflexivity.
Qed.

Lemma increase_counts_pid (pairs : count_t) :
  forall r : postings_data,
    _p_id (foldl (fun r p => increase_count r p.1 p.2) r pairs) = _p_id r.
Proof.
  induction pairs as [| p pairs IH]; intros r; [reflexivity |].
  cbn [foldl]. rewrite IH. unfold increase_count.
  destruct (_ =? _)%nat; [reflexivity |].
  destruct (_ !! _) as [q |]; [| reflexivity].
  destruct (negb _); reflexivity.
Qed.

(** X6: a record grown from no pairs by [increase_count], one call per
    pair of any sequence (any order, keys repeated or not), keeps its
    primary key and has strictly ascending counts, and [count] of a key is
    the sum, from the left, of the weights the sequence gives to that key
    (0 for a key the sequence does not have). *)
Theorem increase_counts_sums (pid : Z) (pairs : count_t) (k : Z) :
  _p_id (increase_counts pid pairs) = pid /\
  strictly_ascending (_counts (increase_counts pid pairs)) = true /\
  count (increase_counts pid pairs) k = default 0%float (add_up k None pairs).
Proof.
  destruct (increase_counts_assoc pairs (postings_data_new pid) eq_refl)
    as [Hs Ha].
  split; [| split; [exact Hs |]].
  - unfold increase_counts. rewrite increase_counts_pid. reflexivity.
  - unfold increase_counts. rewrite (count_assoc _ _ Hs), Ha. reflexivity.
Qed.

Example increase_counts_unordered :
  increase_counts 7 unordered_pairs
  = {| _p_id := 7; _counts := [(1, 2%float); (2, 8%float); (3, 5%float)] |}.
Proof. reflexivity. Qed.

Lemma add_up_nodup (k : Z) (l : count_t) :
  NoDup (keys l) ->
  forall acc : option float,
    add_up k acc l
    = match assoc k l with Some w => sum_opt acc (Some w) | None => acc end.
Proof.
  induction l as [| p l IH]; intros Hnd acc; [reflexivity |].
  cbn [keys map] in Hnd. apply NoDup_cons in Hnd as [Hp Hnd].
  cbn [add_up assoc]. rewrite (IH Hnd).
  destruct (Z.eqb_spec p.1 k) as [<- | N]; [| reflexivity].
  apply assoc_None_keys in Hp. rewrite Hp. reflexivity.
Qed.

(** X7: for a sequence of pairs with no key repeated, growing a record by
    [increase_count] pair by pair and [set_counts] of the whole sequence
    give the same counts. *)
Theorem increase_counts_is_set_counts (pid : Z) (r : postings_data)
    (pairs : count_t) :
  NoDup (keys pairs) ->
  _counts (increase_counts pid pairs) = _counts (set_counts r pairs).
Proof.
  intros Hnd.
  destruct (increase_counts_assoc pairs (postings_data_new pid) eq_refl)
    as [Hs Ha].
  apply assoc_ext; [exact Hs | |].
  - cbn [set_counts _counts].
    apply sorted_nodup_strictly_ascending; [apply sort_counts_sorted |].
    rewrite (keys_perm _ _ (sort_counts_perm pairs)). exact Hnd.
  - intros k. unfold increase_counts. rewrite Ha. cbn [set_counts _counts postings_data_new assoc].
    rewrite (add_up_nodup k pairs Hnd).
    rewrite <- (assoc_perm k pairs (sort_counts pairs) Hnd)
      by (symmetry; apply sort_counts_perm).
    destruct (assoc k pairs); reflexivity.
Qed.

Lemma increase_counts_is_set_counts_witness :
  _counts (increase_counts 7 [(3, 2%float); (1, 1%float)])
  = _counts (set_counts (postings_data_new 7) [(3, 2%float); (1, 1%float)]).
Proof.
  apply (increase_counts_is_set_counts 7 (postings_data_new 7)
           [(3, 2%float); (1, 1%float)]).
  apply (bool_decide_unpack _). vm_compute. exact I.
Defined.

(** ** How set_counts, merge_with and count compose *)

(** X8: after [set_counts] of a sequence of pairs with no key repeated,
    in any order, [count] of a key of the sequence is the weight the
    sequence gives it, and [count] of any other key is 0. *)
Theorem set_counts_count (r : postings_data) (cs : count_t) (k : Z) :
  NoDup (keys cs) ->
  (forall w : float, (k, w) ∈ cs -> count (set_counts r cs) k = w) /\
  (k ∉ keys cs -> count (set_counts r cs) k = 0%float).
Proof.
  intros Hnd.
  assert (Hs : strictly_ascending (_counts (set_counts r cs)) = true).
  { cbn [set_counts _counts].
    apply sorted_nodup_strictly_ascending; [apply sort_counts_sorted |].
    rewrite (keys_perm _ _ (sort_counts_perm cs)). exact Hnd. }
  rewrite (count_assoc _ _ Hs). cbn [set_counts _counts].
  rewrite <- (assoc_perm k cs (sort_counts cs) Hnd)
    by (symmetry; apply sort_counts_perm).
  split.
  - intros w Hw. apply (assoc_Some_elem_of k w cs Hnd) in Hw. rewrite Hw.
    reflexivity.
  - intros Hk. apply assoc_None_keys in Hk. rewrite Hk. reflexivity.
Qed.

Lemma set_counts_count_witness :
  (forall w : float,
      (3, w) ∈ [(3, 2%float); (1, 1%float)] ->
      count (set_counts (postings_data_new 7) [(3, 2%float); (1, 1%float)]) 3 = w) /\
  (3 ∉ keys [(3, 2%float); (1, 1%float)] ->
   count (set_counts (postings_data_new 7) [(3, 2%float); (1, 1%float)]) 3 = 0%float).
Proof.
  apply (set_counts_count (postings_data_new 7) [(3, 2%float); (1, 1%float)] 3).
  apply (bool_decide_unpack _). vm_compute. exact I.
Defined.

Lemma sort_counts_ascending (cs : count_t) :
  strictly_ascending cs = true -> sort_counts cs = cs.
Proof.
  intros Hs. apply sorted_perm_unique.
  - rewrite (keys_perm _ _ (sort_counts_perm cs)).
    apply strictly_ascending_NoDup. exact Hs.
  - apply sort_counts_sorted.
  - apply strictly_ascending_sorted. exact Hs.
  - apply sort_counts_perm.
Qed.

(** X9: [set_counts] of counts that are already strictly ascending stores
    them as they are; so the counts of one valid record can be handed to
    another record unchanged. *)
Theorem set_counts_of_ascending (r : postings_data) (cs : count_t) :
  strictly_ascending cs = true ->
  set_counts r cs = {| _p_id := _p_id r; _counts := cs |}.
Proof.
  intros Hs. unfold set_counts. rewrite (sort_counts_ascending cs Hs).
  reflexivity.
Qed.

Lemma set_counts_of_ascending_witness :
  set_counts (postings_data_new 5) (_counts merge_result)
  = {| _p_id := _p_id (postings_data_new 5); _counts := _counts merge_result |}.
Proof.
  apply (set_counts_of_ascending (postings_data_new 5) (_counts merge_result)).
  reflexivity.
Defined.

(** X10: a record with no pairs is neutral for [merge_with] on records with
    strictly ascending counts: merging it into a record leaves that record
    as it was, and merging a record into it gives that record's counts
    under the receiver's primary key. *)
Theorem merge_with_no_pairs (a : postings_data) (pid : Z) :
  strictly_ascending (_counts a) = true ->
  merge_with a (postings_data_new pid) = a /\
  merge_with (postings_data_new pid) a = {| _p_id := pid; _counts := _counts a |}.
Proof.
  intros Hs. split.
  - unfold merge_with. cbn [postings_data_new _counts foldl].
    rewrite (sort_counts_ascending _ Hs). destruct a; reflexivity.
  - destruct (merge_with_assoc (postings_data_new pid) a eq_refl Hs) as [Hm Em].
    assert (E : _counts (merge_with (postings_data_new pid) a) = _counts a).
    { apply assoc_ext; [exact Hm | exact Hs |]. intros k. rewrite Em. reflexivity. }
    unfold merge_with in *. cbn [_p_id _counts postings_data_new] in *.
    rewrite E. reflexivity.
Qed.

Lemma merge_with_no_pairs_witness :
  merge_with merge_left (postings_data_new 9) = merge_left /\
  merge_with (postings_data_new 9) merge_left
  = {| _p_id := 9; _counts := _counts merge_left |}.
Proof. apply (merge_with_no_pairs merge_left 9). reflexivity. Defined.

(** X11: for two records with strictly ascending counts, [count] of a key
    in the merged record is the sum of the two counts when both records
    hold the key, the count of the record that holds it when only one does,
    and 0 when neither does. *)
Theorem merge_with_count (a b : postings_data) (k : Z) :
  strictly_ascending (_counts a) = true ->
  strictly_ascending (_counts b) = true ->
  (k ∈ keys (_counts a) -> k ∈ keys (_counts b) ->
   count (merge_with a b) k = (count a k + count b k)%float) /\
  (k ∈ keys (_counts a) -> k ∉ keys (_counts b) ->
   count (merge_with a b) k = count a k) /\
  (k ∉ keys (_counts a) -> k ∈ keys (_counts b) ->
   count (merge_with a b) k = count b k) /\
  (k ∉ keys (_counts a) -> k ∉ keys (_counts b) ->
   count (merge_with a b) k = 0%float).
Proof.
  intros Ha Hb. destruct (merge_with_assoc a b Ha Hb) as [Hm Em].
  rewrite (count_assoc _ _ Hm), (count_assoc a k Ha), (count_assoc b k Hb), Em.
  pose proof (assoc_None_keys k (_counts a)) as Na.
  pose proof (assoc_None_keys k (_counts b)) as Nb.
  destruct (assoc k (_counts a)) as [x |], (assoc k (_counts b)) as [y |];
    cbn; (split; [| split; [| split]]); intros Hka Hkb; try reflexivity;
    try (apply Na in Hka; discriminate);
    try (apply Nb in Hkb; discriminate);
    try (exfalso; apply (proj1 Na eq_refl); exact Hka);
    try (exfalso; apply (proj1 Nb eq_refl); exact Hkb).
Qed.

Lemma merge_with_count_witness :
  (3 ∈ keys (_counts merge_left) -> 3 ∈ keys (_counts merge_right) ->
   count (merge_with merge_left merge_right) 3
   = (count merge_left 3 + count merge_right 3)%float) /\
  (3 ∈ keys (_counts merge_left) -> 3 ∉ keys (_counts merge_right) ->
   count (merge_with merge_left merge_right) 3 = count merge_left 3) /\
  (3 ∉ keys (_counts merge_left) -> 3 ∈ keys (_counts merge_right) ->
   count (merge_with merge_left merge_right) 3 = count merge_right 3) /\
  (3 ∉ keys (_counts merge_left) -> 3 ∉ keys (_counts merge_right) ->
   count (merge_with merge_left merge_right) 3 = 0%float).
Proof.
  apply (merge_with_count merge_left merge_right 3); reflexivity.
Defined.

(** ** Several records in one file, and files that are not records *)

Lemma read_compressed_written (delimiter : Z) (r : postings_data)
    (tail : list Z) :
  writable delimiter r = true ->
  read_compressed delimiter (postings_data_new (_p_id r))
    (first_absolute_then_gaps (_counts r) ++ delimiter :: tail)
  = Some (r, tail).
Proof.
  unfold writable. intros H.
  apply andb_true_iff in H as [H Hav]. apply andb_true_iff in H as [Hv _].
  apply valid_record_counts in Hv as [_ Hr].
  unfold read_compressed. rewrite first_absolute_is_gap_from_zero by exact Hr.
  rewrite (read_loop_gaps delimiter (_counts r) 0 [] tail Hr Hav).
  destruct r; reflexivity.
Qed.

Lemma write_compressed_writable (delimiter : Z) (r : postings_data)
    (w : list Z) :
  writable delimiter r = true ->
  write_compressed delimiter r w
  = Some (w ++ first_absolute_then_gaps (_counts r) ++ [delimiter]).
Proof.
  unfold writable. intros H.
  apply andb_true_iff in H as [H _]. apply andb_true_iff in H as [_ Hl].
  apply Nat.ltb_lt in Hl.
  destruct r as [pid [| p rest]]; cbn [_counts] in *; [cbn in Hl; lia |].
  apply write_compressed_nonempty.
Qed.

Lemma write_read_records (delimiter : Z) (rs : list postings_data) :
  forallb (writable delimiter) rs = true ->
  forall (w tail : list Z),
    exists data,
      write_records delimiter rs w = Some (w ++ data) /\
      read_records delimiter (map _p_id rs) (data ++ tail) = Some (rs, tail).
Proof.
  induction rs as [| r rs IH]; intros Hall w tail.
  - exists []. rewrite app_nil_r. split; reflexivity.
  - cbn [forallb] in Hall. apply andb_true_iff in Hall as [Hr Hall].
    cbn [write_records map read_records].
    rewrite (write_compressed_writable delimiter r w Hr).
    destruct (IH Hall (w ++ first_absolute_then_gaps (_counts r) ++ [delimiter]) tail)
      as (data & Hw & Hrd).
    exists ((first_absolute_then_gaps (_counts r) ++ [delimiter]) ++ data).
    split.
    + rewrite Hw. rewrite <- !app_assoc. reflexivity.
    + rewrite <- !app_assoc. cbn [app].
      rewrite (read_compressed_written delimiter r (data ++ tail) Hr).
      rewrite Hrd. reflexivity.
Qed.

(** X12: records written one after the other into one file, each valid,
    with at least one pair and with no gap that is the delimiter, are read
    back in the same order by one [read_compressed] call each, each call
    stopping where the next record starts. *)
Theorem read_records_write_records (delimiter : Z) (rs : list postings_data)
    (tail : list Z) :
  forallb (writable delimiter) rs = true ->
  exists data,
    write_records delimiter rs [] = Some data /\
    read_records delimiter (map _p_id rs) (data ++ tail) = Some (rs, tail).
Proof.
  intros Hall. destruct (write_read_records delimiter rs Hall [] tail)
    as (data & Hw & Hr).
  exists data. split; assumption.
Qed.

Lemma read_records_write_records_witness :
  exists data,
    write_records max_uint64 [merge_left; gap_example; merge_right] [] = Some data /\
    read_records max_uint64 (map _p_id [merge_left; gap_example; merge_right])
                 (data ++ [])
    = Some ([merge_left; gap_example; merge_right], []).
Proof.
  apply (read_records_write_records max_uint64
           [merge_left; gap_example; merge_right] []).
  reflexivity.
Defined.

Lemma read_loop_defined (delimiter : Z) (n : nat) :
  forall (data : list Z) (last_id : Z) (acc : count_t),
    (length data <= n)%nat ->
    (is_Some (read_loop delimiter data last_id acc) <->
     exists i : nat, data !! (2 * i)%nat = Some delimiter).
Proof.
  induction n as [| n IH]; intros data last_id acc Hlen.
  - destruct data; [| cbn in Hlen; lia]. cbn. split.
    + intros [x Hx]. discriminate.
    + intros [i Hi]. rewrite lookup_nil in Hi. discriminate.
  - destruct data as [| t data]; cbn [read_loop].
    { split; [intros [x Hx]; discriminate |].
      intros [i Hi]. rewrite lookup_nil in Hi. discriminate. }
    destruct (Z.eqb_spec t delimiter) as [-> | Nt].
    { split; [intros _; exists 0%nat; reflexivity | intros _; eauto]. }
    destruct data as [| x data].
    { split; [intros [y Hy]; discriminate |].
      intros [i Hi]. destruct i as [| i]; cbn in Hi; [congruence |].
      rewrite Nat.add_succ_r in Hi. cbn in Hi. discriminate. }
    rewrite IH by (cbn in Hlen; lia).
    split.
    + intros [i Hi]. exists (S i).
      replace (2 * S i)%nat with (S (S (2 * i))) by lia. exact Hi.
    + intros [i Hi]. destruct i as [| i]; [cbn in Hi; congruence |].
      exists i. replace (2 * S i)%nat with (S (S (2 * i))) in Hi by lia.
      exact Hi.
Qed.

(** X13: [read_compressed] gets to the end of a record, without asking the
    reader for a value past the end of the data, exactly when the data
    holds the delimiter at an even position, where a key is read; a
    delimiter value where a weight is read does not end the record. *)
Theorem read_compressed_defined (delimiter : Z) (r : postings_data)
    (data : list Z) :
  is_Some (read_compressed delimiter r data) <->
  exists i : nat, data !! (2 * i)%nat = Some delimiter.
Proof.
  rewrite <- (read_loop_defined delimiter (length data) data 0 []) by lia.
  unfold read_compressed.
  destruct (read_loop delimiter data 0 []) as [[c rest] |].
  - split; intros _; eauto.
  - split; intros [x Hx]; discriminate.
Qed.

(** A weight whose bits are the delimiter is read as a weight. *)
Example read_compressed_weight_delimiter :
  read_compressed 5 (postings_data_new 7) [2; 5; 5; 9]
  = Some ({| _p_id := 7; _counts := [(2, bits_to_double 5)] |}, [9]) /\
  read_compressed 5 (postings_data_new 7) [2; 5; 3] = None.
Proof. split; reflexivity. Qed.

Lemma read_loop_decoded (delimiter : Z) (gw : list (Z * Z)) :
  forall (prev : Z) (acc : count_t) (tail : list Z),
    forallb (plain_pair delimiter) gw = true ->
    read_loop delimiter (file_values gw ++ delimiter :: tail) prev acc
    = Some (acc ++ decoded prev gw, tail).
Proof.
  induction gw as [| [g b] gw IH]; intros prev acc tail Hp.
  - cbn. rewrite Z.eqb_refl, app_nil_r. reflexivity.
  - cbn [forallb] in Hp. apply andb_true_iff in Hp as [Hgb Hp].
    unfold plain_pair in Hgb. cbn [fst snd] in Hgb.
    apply andb_true_iff in Hgb as [Hgb _].
    apply andb_true_iff in Hgb as [_ Hd]. apply negb_true_iff in Hd.
    cbn [file_values app read_loop decoded]. rewrite Hd.
    rewrite (IH _ _ tail Hp). rewrite <- app_assoc. reflexivity.
Qed.

Lemma gap_tokens_decoded (delimiter : Z) (gw : list (Z * Z)) :
  forall prev : Z,
    forallb (plain_pair delimiter) gw = true ->
    gap_tokens prev (decoded prev gw) = file_values gw.
Proof.
  induction gw as [| [g b] gw IH]; intros prev Hp; [reflexivity |].
  cbn [forallb] in Hp. apply andb_true_iff in Hp as [Hgb Hp].
  unfold plain_pair in Hgb. cbn [fst snd] in Hgb.
  apply andb_true_iff in Hgb as [Hgb Hb].
  apply andb_true_iff in Hgb as [Hg _].
  apply andb_true_iff in Hg as [Hg1 Hg2].
  apply Z.leb_le in Hg1. apply Z.ltb_lt in Hg2. apply Z.eqb_eq in Hb.
  cbn [decoded gap_tokens file_values fst snd].
  rewrite (IH _ Hp), Hb. f_equal.
  unfold wrap64. rewrite Zminus_mod_idemp_l.
  replace (prev + g - prev) with g by lia.
  apply Z.mod_small. unfold uint64_modulus in *. lia.
Qed.

(** X14: the other way round.  When the values of a file are, pair by
    pair, a 64-bit key value other than the delimiter and the bits of a
    double, at least one pair, then the delimiter, [read_compressed] reads a
    record from them and [write_compressed] of that record writes the very
    same values. *)
Theorem write_compressed_read_compressed (delimiter pid : Z)
    (gw : list (Z * Z)) (tail : list Z) :
  forallb (plain_pair delimiter) gw = true ->
  (0 < length gw)%nat ->
  exists r : postings_data,
    read_compressed delimiter (postings_data_new pid)
      (file_values gw ++ delimiter :: tail) = Some (r, tail) /\
    write_compressed delimiter r [] = Some (file_values gw ++ [delimiter]).
Proof.
  intros Hp Hlen.
  exists {| _p_id := pid; _counts := decoded 0 gw |}. split.
  - unfold read_compressed. rewrite (read_loop_decoded delimiter gw 0 [] tail Hp).
    reflexivity.
  - pose proof (gap_tokens_decoded delimiter gw 0 Hp) as Hg.
    destruct gw as [| [g b] gw]; [cbn in Hlen; lia |].
    cbn [decoded] in *. rewrite write_compressed_nonempty.
    cbn [first_absolute_then_gaps gap_tokens file_values fst snd app] in *.
    injection Hg as Hg0 Hb Hrest. rewrite Hb, Hrest.
    cbn [forallb] in Hp. apply andb_true_iff in Hp as [Hgb _].
    unfold plain_pair in Hgb. cbn [fst snd] in Hgb.
    apply andb_true_iff in Hgb as [Hgb _].
    apply andb_true_iff in Hgb as [Hgr _].
    apply andb_true_iff in Hgr as [Hg1 Hg2].
    apply Z.leb_le in Hg1. apply Z.ltb_lt in Hg2.
    rewrite (wrap64_small (0 + g)) by lia. reflexivity.
Qed.

Lemma write_compressed_read_compressed_witness :
  exists r : postings_data,
    read_compressed max_uint64 (postings_data_new 7)
      (file_values [(10, double_to_bits 1); (2, double_to_bits 2)]
         ++ max_uint64 :: [0]) = Some (r, [0]) /\
    write_compressed max_uint64 r []
    = Some (file_values [(10, double_to_bits 1); (2, double_to_bits 2)]
              ++ [max_uint64]).
Proof.
  apply (write_compressed_read_compressed max_uint64 7
           [(10, double_to_bits 1); (2, double_to_bits 2)] [0]).
  - reflexivity.
  - cbn. lia.
Defined.

(** ** The bits of a double, the other way round *)

Lemma digits2_pos_small (m : positive) :
  Z.pos m < 2 ^ 52 -> Z.pos (digits2_pos m) <= 52.
Proof.
  intros Hm. pose proof (digits2_pos_bounds m) as [Hlo _].
  destruct (Z_le_gt_dec (Z.pos (digits2_pos m)) 52) as [H | H]; [exact H |].
  exfalso.
  assert (2 ^ 52 <= 2 ^ (Z.pos (digits2_pos m) - 1))
    by (apply Z.pow_le_mono_r; lia).
  lia.
Qed.

Lemma digits2_pos_normal (m : positive) :
  2 ^ 52 <= Z.pos m < 2 ^ 53 -> Z.pos (digits2_pos m) = 53.
Proof.
  intros [Hlo Hhi]. pose proof (digits2_pos_bounds m) as [Hl Hh].
  destruct (Z.lt_trichotomy (Z.pos (digits2_pos m)) 53) as [H | [H | H]];
    [| exact H |]; exfalso.
  - assert (2 ^ Z.pos (digits2_pos m) <= 2 ^ 52)
      by (apply Z.pow_le_mono_r; lia).
    lia.
  - assert (2 ^ 53 <= 2 ^ (Z.pos (digits2_pos m) - 1))
      by (apply Z.pow_le_mono_r; lia).
    lia.
Qed.

(** A 64-bit value splits into sign, exponent field and fraction. *)
Lemma bits_fields (z : Z) :
  0 <= z < 2 ^ 64 ->
  exists (sb : bool) (E M : Z),
    0 <= E < 2048 /\ 0 <= M < 2 ^ 52 /\ z = sign_bit sb + E * 2 ^ 52 + M.
Proof.
  intros Hz.
  exists (2 ^ 63 <=? z), ((z / 2 ^ 52) mod 2 ^ 11), (z mod 2 ^ 52).
  split; [apply Z.mod_pos_bound; lia |].
  split; [apply Z.mod_pos_bound; lia |].
  pose proof (Z.div_mod z (2 ^ 52) ltac:(lia)) as H1.
  pose proof (Z.div_mod (z / 2 ^ 52) (2 ^ 11) ltac:(lia)) as H2.
  pose proof (Z.mod_pos_bound z (2 ^ 52) ltac:(lia)) as B1.
  pose proof (Z.mod_pos_bound (z / 2 ^ 52) (2 ^ 11) ltac:(lia)) as B2.
  assert (B3 : 0 <= z / 2 ^ 52 < 2 ^ 12).
  { split; [apply Z.div_pos; lia |].
    apply Z.div_lt_upper_bound; [lia |]. change (2 ^ 52 * 2 ^ 12) with (2 ^ 64). lia. }
  set (q := z / 2 ^ 52) in *. set (t := q / 2 ^ 11) in *.
  assert (B4 : 0 <= t < 2).
  { unfold t. split; [apply Z.div_pos; lia |].
    apply Z.div_lt_upper_bound; [lia |]. change (2 ^ 11 * 2) with (2 ^ 12). lia. }
  unfold sign_bit. change (2 ^ 63) with (2 ^ 11 * 2 ^ 52) in *.
  change (2 ^ 11) with 2048 in *. change (2 ^ 12) with 4096 in *.
  destruct (Z.leb_spec (2048 * 2 ^ 52) z) as [Hs | Hs].
  - assert (t = 1) by nia. nia.
  - assert (t = 0) by nia. nia.
Qed.

(** Every 64-bit value but the NaN patterns is the bits of the double it
    is cast to; of the NaN patterns only 0x7FF8000000000000 is. *)
Lemma double_to_bits_to_double (z : Z) :
  0 <= z < 2 ^ 64 ->
  (z / 2 ^ 52) mod 2 ^ 11 <> 2047 \/ z mod 2 ^ 52 = 0 ->
  double_to_bits (bits_to_double z) = z.
Proof.
  intros Hz Hnan.
  destruct (bits_fields z Hz) as (sb & E & M & HE & HM & ->).
  destruct (split_bits sb E M HE HM) as (H1 & H2 & H3). cbn zeta in H1, H2, H3.
  rewrite H2, H3 in Hnan.
  unfold double_to_bits, bits_to_double.
  assert (Hgoal : valid_binary (spec_of_bits (sign_bit sb + E * 2 ^ 52 + M)) = true /\
                  bits_of_spec (spec_of_bits (sign_bit sb + E * 2 ^ 52 + M))
                  = sign_bit sb + E * 2 ^ 52 + M).
  { unfold spec_of_bits. rewrite H1, H2, H3.
    destruct (Z.eqb_spec E 0) as [-> | NE0].
    - destruct M as [| m | m]; [| | lia].
      + split; [reflexivity |]. cbn [bits_of_spec]. lia.
      + split.
        * unfold SpecFloat.valid_binary, bounded, canonical_mantissa, fexp,
            SpecFloat.emin, prec, emax.
          pose proof (digits2_pos_small m ltac:(lia)).
          apply andb_true_iff. split; [apply Z.eqb_eq; lia | apply Z.leb_le; lia].
        * cbn [bits_of_spec].
          destruct (Z.ltb_spec (Z.pos m) (2 ^ 52)); lia.
    - destruct (Z.eqb_spec E 2047) as [-> | NE1].
      + destruct Hnan as [? | ->]; [lia |]. cbn [Z.eqb].
        split; [reflexivity |]. cbn [bits_of_spec]. lia.
      + destruct (2 ^ 52 + M) as [| m | m] eqn:Em; [lia | | lia].
        split.
        * unfold SpecFloat.valid_binary, bounded, canonical_mantissa, fexp,
            SpecFloat.emin, prec, emax.
          pose proof (digits2_pos_normal m) as Hd.
          change (2 ^ 53) with (2 * 2 ^ 52) in Hd.
          rewrite Hd by lia.
          apply andb_true_iff. split; [apply Z.eqb_eq; lia | apply Z.leb_le; lia].
        * cbn [bits_of_spec].
          destruct (Z.ltb_spec (Z.pos m) (2 ^ 52)); lia. }
  destruct Hgoal as [Hv Hb]. rewrite Prim2SF_SF2Prim by exact Hv. exact Hb.
Qed.

(** ** A record merged with itself *)

Lemma keys_doubled (l : count_t) : keys (doubled l) = keys l.
Proof. unfold keys, doubled. rewrite map_map. reflexivity. Qed.

(** On strictly ascending counts the search for the key held at an index
    ends at that index. *)
Lemma lower_bound_at_index (cs : count_t) (i : nat) (p : pair_t) :
  strictly_ascending cs = true -> cs !! i = Some p ->
  lower_bound cs 0 (length cs) p.1 = i.
Proof.
  intros Hs Hp.
  destruct (lower_bound_partition cs p.1 (length cs)) as (Hle & Hlo & Hhi);
    [lia | rewrite take_ge by lia; exact Hs |].
  set (it := lower_bound cs 0 (length cs) p.1) in *.
  assert (Hi : (i < length cs)%nat) by (eapply lookup_lt_Some; exact Hp).
  destruct (Nat.lt_trichotomy it i) as [Hlt | [E | Hgt]]; [| exact E |].
  - destruct (lookup_lt_is_Some_2 cs it) as [q Hq]; [lia |].
    assert (p.1 <= q.1) by (apply (Hhi it q); [lia | exact Hq]).
    pose proof (strictly_ascending_lookup cs Hs it i q p Hlt Hq Hp). lia.
  - pose proof (Hlo i p Hgt Hp). lia.
Qed.

Lemma merge_loop_at_itself (a : nat) (pid : Z) (rest : count_t) :
  forall (pre : count_t) (h : store),
    strictly_ascending (pre ++ rest) = true ->
    h !! a = Some {| _p_id := pid; _counts := doubled pre ++ rest |} ->
    merge_loop_at a a (length (pre ++ rest)) (seq (length pre) (length rest)) h
    = Some (<[a := {| _p_id := pid; _counts := doubled (pre ++ rest) |}]> h).
Proof.
  induction rest as [| p rest IH]; intros pre h Hs Ha.
  - cbn [length seq merge_loop_at]. f_equal. symmetry. apply insert_id.
    rewrite Ha, !app_nil_r. reflexivity.
  - cbn [length seq merge_loop_at]. unfold merge_step_at.
    rewrite Ha. cbn [_counts _p_id].
    assert (Hlen : length (doubled pre) = length pre)
      by (unfold doubled; apply length_map).
    assert (Hp : (doubled pre ++ p :: rest) !! length pre = Some p)
      by (rewrite <- Hlen; apply list_lookup_middle; reflexivity).
    rewrite Hp.
    assert (Hs' : strictly_ascending (doubled pre ++ p :: rest) = true).
    { rewrite (strictly_ascending_keys _ (pre ++ p :: rest)); [exact Hs |].
      rewrite !keys_app, keys_doubled. reflexivity. }
    assert (Hl : length (pre ++ p :: rest) = length (doubled pre ++ p :: rest))
      by (rewrite !length_app, Hlen; reflexivity).
    rewrite Hl.
    rewrite (lower_bound_at_index _ (length pre) p Hs' Hp).
    destruct (Nat.eqb_spec (length pre) (length (doubled pre ++ p :: rest)))
      as [E | _].
    { rewrite length_app, Hlen in E. cbn in E. lia. }
    rewrite Hp, Z.eqb_refl. cbn [negb].
    assert (Hins : <[length pre := (p.1, (p.2 + p.2)%float)]>
                     (doubled pre ++ p :: rest)
                   = doubled pre ++ (p.1, (p.2 + p.2)%float) :: rest)
      by (rewrite <- Hlen; apply insert_middle).
    rewrite Hins.
    replace (S (length pre)) with (length (pre ++ [p]))
      by (rewrite length_app; cbn; lia).
    replace (length (doubled pre ++ p :: rest))
      with (length ((pre ++ [p]) ++ rest))
      by (rewrite <- Hl, <- app_assoc; reflexivity).
    rewrite (IH (pre ++ [p])).
    + rewrite insert_insert_eq, <- app_assoc. reflexivity.
    + rewrite <- app_assoc. exact Hs.
    + rewrite lookup_insert_eq. f_equal. f_equal.
      unfold doubled. rewrite map_app, <- app_assoc. reflexivity.
Qed.

(** X15: a record with strictly ascending counts merged with itself,
    [a.merge_with(a)], ends with every weight added to itself, the keys and
    the primary key as they were; no pair is pushed, so the vector the loop
    runs over is never resized. *)
Theorem merge_with_itself_doubles (h : store) (a : nat) (s : postings_data) :
  h !! a = Some s -> strictly_ascending (_counts s) = true ->
  merge_with_at h a a
  = Some (<[a := {| _p_id := _p_id s; _counts := doubled (_counts s) |}]> h).
Proof.
  intros Ha Hs. unfold merge_with_at. rewrite Ha.
  pose proof (merge_loop_at_itself a (_p_id s) (_counts s) [] h Hs) as E.
  cbn [app length doubled map] in E. rewrite E
    by (rewrite Ha; destruct s; reflexivity).
  rewrite lookup_insert_eq. cbn [_p_id _counts app].
  rewrite insert_insert_eq.
  rewrite sort_counts_ascending; [reflexivity |].
  rewrite (strictly_ascending_keys _ (_counts s)); [exact Hs | apply keys_doubled].
Qed.

Lemma merge_with_itself_doubles_witness :
  merge_with_at {[ 4%nat := merge_result ]} 4 4
  = Some (<[4%nat := {| _p_id := _p_id merge_result;
                        _counts := doubled (_counts merge_result) |}]>
            {[ 4%nat := merge_result ]}).
Proof.
  apply (merge_with_itself_doubles {[ 4%nat := merge_result ]} 4 merge_result);
    reflexivity.
Defined.

(** ** The compress pass when document 0 has no record *)

Lemma compress_loop_keys_from_one (input : list postings_data) :
  forall (last : Z) (out : list postings_data),
    0 <= last -> keys_go_up last input ->
    map primary_key out = seqZ 1 last ->
    map primary_key (compress_loop input last out)
    = seqZ 1 (final_key last input).
Proof.
  induction input as [| r input IH]; intros last out Hlast Hup Hout.
  - exact Hout.
  - destruct Hup as [Hr Hup]. cbn [compress_loop final_key].
    apply IH; [lia | exact Hup |].
    rewrite !map_app, Hout. unfold gap_fill.
    rewrite wrap64_small by lia.
    rewrite map_map. cbn [primary_key postings_data_new _p_id map].
    rewrite map_id.
    replace (primary_key r)
      with (last + ((primary_key r - (last + 1)) + 1)) at 3 by lia.
    rewrite (seqZ_app 1 last) by lia.
    rewrite (seqZ_app (1 + last)) by lia.
    rewrite <- app_assoc. f_equal.
    replace (1 + last) with (last + 1) by lia. f_equal.
    replace (last + 1 + (primary_key r - (last + 1))) with (primary_key r)
      by lia.
    reflexivity.
Qed.

(** X16: when the input of [compress] has no record for document 0 (its
    primary keys ascend from a first key above 0), the records written are
    those of the keys 1, 2, ... up to the last key of the input, in that
    order: slot k of the offset table addresses the record of key k + 1,
    and for one document or more the table is not dense. *)
Theorem compress_without_key_zero (input : list postings_data) (num_docs : Z) :
  keys_go_up 0 input ->
  map primary_key (compress input num_docs) = seqZ 1 (final_key 0 input) /\
  (forall k : Z,
      0 <= k < final_key 0 input ->
      exists r : postings_data,
        slot (compress input num_docs) k = Some r /\ primary_key r = k + 1) /\
  (0 < num_docs -> dense (compress input num_docs) num_docs = false).
Proof.
  intros Hup.
  assert (Hk : map primary_key (compress input num_docs)
               = seqZ 1 (final_key 0 input)).
  { unfold compress. apply compress_loop_keys_from_one; [lia | exact Hup |].
    reflexivity. }
  split; [exact Hk |]. split.
  - intros k Hk'. unfold slot.
    destruct (Z.ltb_spec k 0) as [? | _]; [lia |].
    assert (Hl : map primary_key (compress input num_docs) !! Z.to_nat k
                 = Some (k + 1)).
    { rewrite Hk, lookup_seqZ_lt by lia. f_equal. lia. }
    change (map primary_key (compress input num_docs))
      with (primary_key <$> compress input num_docs) in Hl.
    rewrite list_lookup_fmap in Hl.
    destruct (compress input num_docs !! Z.to_nat k) as [r |]; [| discriminate].
    cbn in Hl. injection Hl as Hr. exists r. split; [reflexivity | exact Hr].
  - intros Hn. unfold dense. rewrite seqZ_cons by lia. cbn [forallb].
    apply andb_false_iff. left. unfold slot.
    change (0 <? 0) with false. change (Z.to_nat 0) with 0%nat. cbv iota.
    destruct (compress input num_docs) as [| r out] eqn:E; [reflexivity |].
    change ((r :: out) !! 0%nat) with (Some r). cbv iota. cbn [map] in Hk.
    destruct (Z_lt_le_dec 0 (final_key 0 input)) as [Hf | Hf].
    + rewrite seqZ_cons in Hk by lia. injection Hk as Hr _. rewrite Hr. reflexivity.
    + rewrite seqZ_nil in Hk by lia. discriminate.
Qed.

Lemma compress_without_key_zero_witness :
  map primary_key (compress [doc_one; doc_three] 4)
  = seqZ 1 (final_key 0 [doc_one; doc_three]) /\
  (forall k : Z,
      0 <= k < final_key 0 [doc_one; doc_three] ->
      exists r : postings_data,
        slot (compress [doc_one; doc_three] 4) k = Some r /\
        primary_key r = k + 1) /\
  (0 < 4 -> dense (compress [doc_one; doc_three] 4) 4 = false).
Proof.
  apply (compress_without_key_zero [doc_one; doc_three] 4).
  cbn. unfold uint64_modulus. lia.
Defined.

(** ** Postings from libsvm data *)

Lemma scan_count_fold (counts : count_t) :
  forall (n t : Z) (x : float),
    0 <= n < uint64_modulus ->
    foldl scan_count (n, t, x) counts
    = (wrap64 (n + Z.of_nat (length counts)), max_key t counts,
       foldl (fun (x : float) (p : pair_t) => (x + p.2)%float) x counts).
Proof.
  induction counts as [| p counts IH]; intros n t x Hn.
  - cbn. rewrite Z.add_0_r, wrap64_small by exact Hn. reflexivity.
  - cbn [foldl scan_count length]. unfold max_key. cbn [foldl].
    rewrite IH by (unfold wrap64, uint64_modulus; apply Z.mod_pos_bound; lia).
    f_equal. f_equal. unfold wrap64.
    rewrite Zplus_mod_idemp_l. f_equal. lia.
Qed.

(** The state of the loop after the lines read so far: every line left its
    record, its label and its metadata under its own index. *)
Lemma libsvm_lines_fold {class_label : Type}
    (lines : list (class_label * count_t)) :
  Z.of_nat (length lines) < uint64_modulus ->
  foldl libsvm_line
        {| lb_d_id := 0; lb_total_unique_terms := 0;
           lb_written := []; lb_labels := []; lb_metadata := [] |} lines
  = {| lb_d_id := Z.of_nat (length lines);
       lb_total_unique_terms :=
         foldl (fun (t : Z) (line : class_label * count_t) => max_key t line.2)
               0 lines;
       lb_written :=
         imap (fun (k : nat) (line : class_label * count_t) =>
                 set_counts (postings_data_new (Z.of_nat k)) line.2) lines;
       lb_labels :=
         imap (fun (k : nat) (line : class_label * count_t) =>
                 (Z.of_nat k, line.1)) lines;
       lb_metadata :=
         imap (fun (k : nat) (line : class_label * count_t) =>
                 (Z.of_nat k, double_to_uint64 (sum_weights line.2),
                  wrap64 (Z.of_nat (length line.2)))) lines |}.
Proof.
  induction lines as [| line lines IH] using rev_ind; intros Hlen.
  - reflexivity.
  - rewrite length_app in Hlen. cbn [length] in Hlen.
    rewrite foldl_app. cbn [foldl]. rewrite IH by lia.
    unfold libsvm_line. cbn [lb_d_id lb_total_unique_terms lb_written lb_labels lb_metadata].
    rewrite scan_count_fold by (unfold uint64_modulus; lia).
    rewrite !imap_app, !foldl_app, length_app. cbn [imap foldl length].
    rewrite !Nat.add_0_r, Z.add_0_l.
    rewrite wrap64_small by lia.
    f_equal. lia.
Qed.

(** X17: with both configuration values present and fewer than 2^64 lines,
    [create_libsvm_postings] hands the writer one record per line, the
    record of line k having the primary key k and the sorted counts of the
    line, so the offset table is dense over the number of lines; the label
    and the metadata of line k are stored under document k as well, the
    metadata holding the weights of the line added up from the left, with
    the fraction cut off, and the number of pairs of the line. *)
Theorem create_libsvm_postings_by_line {class_label : Type}
    (prefix dataset : string) (lines : list (class_label * count_t)) :
  Z.of_nat (length lines) < uint64_modulus ->
  exists res : libsvm_build,
    create_libsvm_postings (Some prefix) (Some dataset) lines = inr res /\
    dense (lb_written res) (Z.of_nat (length lines)) = true /\
    (forall (k : nat) (line : class_label * count_t),
        lines !! k = Some line ->
        lb_written res !! k
        = Some (set_counts (postings_data_new (Z.of_nat k)) line.2) /\
        lb_labels res !! k = Some (Z.of_nat k, line.1) /\
        lb_metadata res !! k
        = Some (Z.of_nat k, double_to_uint64 (sum_weights line.2),
                wrap64 (Z.of_nat (length line.2)))).
Proof.
  intros Hlen. unfold create_libsvm_postings.
  rewrite (libsvm_lines_fold lines Hlen).
  cbn [lb_d_id lb_total_unique_terms lb_written lb_labels lb_metadata].
  eexists. split; [reflexivity |].
  cbn [lb_written lb_labels lb_metadata]. split.
  - apply dense_of_keys.
    change (map primary_key ?l) with (primary_key <$> l).
    rewrite fmap_imap.
    apply list_eq. intros i. rewrite list_lookup_imap.
    destruct (lines !! i) as [line |] eqn:E.
    + cbn. rewrite lookup_seqZ_lt; [f_equal; lia |].
      apply lookup_lt_Some in E. lia.
    + cbn. symmetry. apply lookup_seqZ_ge.
      apply lookup_ge_None in E. lia.
  - intros k line Hk. rewrite !list_lookup_imap, Hk. repeat split; reflexivity.
Qed.

Lemma create_libsvm_postings_by_line_witness :
  exists res : libsvm_build,
    create_libsvm_postings (Some "data"%string) (Some "rcv1"%string) three_lines
    = inr res /\
    dense (lb_written res) (Z.of_nat (length three_lines)) = true /\
    (forall (k : nat) (line : Z * count_t),
        three_lines !! k = Some line ->
        lb_written res !! k
        = Some (set_counts (postings_data_new (Z.of_nat k)) line.2) /\
        lb_labels res !! k = Some (Z.of_nat k, line.1) /\
        lb_metadata res !! k
        = Some (Z.of_nat k, double_to_uint64 (sum_weights line.2),
                wrap64 (Z.of_nat (length line.2)))).
Proof.
  apply (create_libsvm_postings_by_line "data"%string "rcv1"%string three_lines).
  cbn. unfold uint64_modulus. lia.
Defined.

(** The scenario of the three documents: three unique terms, and the three
    records with their counts. *)
Example create_libsvm_postings_three_lines :
  create_libsvm_postings (Some "data"%string) (Some "rcv1"%string) three_lines
  = inr {| lb_d_id := 3;
           lb_total_unique_terms := 3;
           lb_written :=
             [{| _p_id := 0; _counts := [(0, 2%float); (2, 1%float)] |};
              {| _p_id := 1; _counts := [(1, 1%float)] |};
              {| _p_id := 2;
                 _counts := [(0, 1%float); (1, 3%float); (2, 2%float)] |}];
           lb_labels := [(0, 1); (1, -1); (2, 1)];
           lb_metadata := [(0, Some 3, 2); (1, Some 1, 1); (2, Some 6, 3)] |}.
Proof. reflexivity. Qed.

Lemma max_key_bounds (counts : count_t) :
  forall t : Z,
    t <= max_key t counts /\
    (forall p : pair_t, p ∈ counts -> p.1 <= max_key t counts) /\
    (max_key t counts = t \/
     exists p : pair_t, p ∈ counts /\ max_key t counts = p.1).
Proof.
  unfold max_key.
  induction counts as [| q counts IH]; intros t; cbn [foldl].
  - split; [lia |]. split; [| left; reflexivity].
    intros p Hp. apply elem_of_nil in Hp. destruct Hp.
  - destruct (IH (if t <? q.1 then q.1 else t)) as (H1 & H2 & H3).
    assert (Ht : t <= (if t <? q.1 then q.1 else t) /\
                 q.1 <= (if t <? q.1 then q.1 else t))
      by (destruct (Z.ltb_spec t q.1); lia).
    split; [lia |]. split.
    + intros p Hp. apply elem_of_cons in Hp as [-> | Hp]; [lia | exact (H2 p Hp)].
    + destruct H3 as [E | (p & Hp & E)].
      * destruct (Z.ltb_spec t q.1).
        -- right. exists q. split; [apply list_elem_of_here | exact E].
        -- left. exact E.
      * right. exists p. split; [apply list_elem_of_further; exact Hp | exact E].
Qed.

Lemma max_key_lines {class_label : Type} (lines : list (class_label * count_t)) :
  forall t : Z,
    let T := foldl (fun (t : Z) (line : class_label * count_t) =>
                      max_key t line.2) t lines in
    t <= T /\
    (forall (line : class_label * count_t) (p : pair_t),
        line ∈ lines -> p ∈ line.2 -> p.1 <= T) /\
    (T = t \/
     exists (line : class_label * count_t) (p : pair_t),
       line ∈ lines /\ p ∈ line.2 /\ T = p.1).
Proof.
  induction lines as [| l lines IH]; intros t; cbn [foldl].
  - split; [lia |]. split; [| left; reflexivity].
    intros line p Hl. apply elem_of_nil in Hl. destruct Hl.
  - destruct (max_key_bounds l.2 t) as (B1 & B2 & B3).
    destruct (IH (max_key t l.2)) as (H1 & H2 & H3). cbn zeta in *.
    split; [lia |]. split.
    + intros line p Hl Hp. apply elem_of_cons in Hl as [-> | Hl].
      * specialize (B2 p Hp). lia.
      * exact (H2 line p Hl Hp).
    + destruct H3 as [E | (line & p & Hl & Hp & E)].
      * destruct B3 as [E' | (p & Hp & E')].
        -- left. congruence.
        -- right. exists l, p. split; [apply list_elem_of_here |].
           split; [exact Hp | congruence].
      * right. exists line, p. split; [apply list_elem_of_further; exact Hl |].
        split; [exact Hp | exact E].
Qed.

Lemma libsvm_lines_total {class_label : Type}
    (lines : list (class_label * count_t)) :
  forall st : libsvm_build,
    lb_total_unique_terms (foldl libsvm_line st lines)
    = foldl (fun (t : Z) (line : class_label * count_t) => max_key t line.2)
            (lb_total_unique_terms st) lines.
Proof.
  induction lines as [| l lines IH]; intros st; [reflexivity |].
  cbn [foldl]. rewrite IH. f_equal. unfold libsvm_line.
  rewrite scan_count_fold by (unfold uint64_modulus; lia). reflexivity.
Qed.

(** X18: with both configuration values present and every feature id a
    64-bit value below 2^64 - 1, the [total_unique_terms_] that
    [create_libsvm_postings] ends with is above every feature id of the
    file, and it is the largest feature id plus one; a file with no pair at
    all ends with 1. *)
Theorem create_libsvm_postings_unique_terms {class_label : Type}
    (prefix dataset : string) (lines : list (class_label * count_t)) :
  feature_ids_in_range lines = true ->
  exists res : libsvm_build,
    create_libsvm_postings (Some prefix) (Some dataset) lines = inr res /\
    (forall (line : class_label * count_t) (p : pair_t),
        line ∈ lines -> p ∈ line.2 -> p.1 < lb_total_unique_terms res) /\
    (lb_total_unique_terms res = 1 \/
     exists (line : class_label * count_t) (p : pair_t),
       line ∈ lines /\ p ∈ line.2 /\ lb_total_unique_terms res = p.1 + 1) /\
    ((forall line : class_label * count_t, line ∈ lines -> line.2 = []) ->
     lb_total_unique_terms res = 1).
Proof.
  intros Hb.
  assert (Hr : forall (line : class_label * count_t) (p : pair_t),
             line ∈ lines -> p ∈ line.2 -> 0 <= p.1 < uint64_modulus - 1).
  { intros line p Hl Hp. unfold feature_ids_in_range in Hb.
    rewrite forallb_forall in Hb.
    apply list_elem_of_In in Hl. specialize (Hb line Hl).
    rewrite forallb_forall in Hb.
    apply list_elem_of_In in Hp. specialize (Hb p Hp).
    apply andb_true_iff in Hb as [Hb1 Hb2].
    apply Z.leb_le in Hb1. apply Z.ltb_lt in Hb2. lia. }
  unfold create_libsvm_postings. eexists. split; [reflexivity |].
  cbn [lb_total_unique_terms]. rewrite libsvm_lines_total.
  cbn [lb_total_unique_terms].
  destruct (max_key_lines lines 0) as (H1 & H2 & H3). cbn zeta in *.
  set (T := foldl (fun (t : Z) (line : class_label * count_t) =>
                     max_key t line.2) 0 lines) in *.
  assert (HT : 0 <= T < uint64_modulus - 1).
  { destruct H3 as [-> | (line & p & Hl & Hp & ->)].
    - unfold uint64_modulus. lia.
    - exact (Hr line p Hl Hp). }
  rewrite wrap64_small by lia.
  split; [| split].
  - intros line p Hl Hp. specialize (H2 line p Hl Hp). lia.
  - destruct H3 as [-> | (line & p & Hl & Hp & E)].
    + left. reflexivity.
    + right. exists line, p. split; [exact Hl |]. split; [exact Hp | lia].
  - intros Hempty. destruct H3 as [-> | (line & p & Hl & Hp & E)]; [reflexivity |].
    rewrite (Hempty line Hl) in Hp. apply elem_of_nil in Hp. destruct Hp.
Qed.

Lemma create_libsvm_postings_unique_terms_witness :
  exists res : libsvm_build,
    create_libsvm_postings (Some "data"%string) (Some "rcv1"%string) three_lines
    = inr res /\
    (forall (line : Z * count_t) (p : pair_t),
        line ∈ three_lines -> p ∈ line.2 -> p.1 < lb_total_unique_terms res) /\
    (lb_total_unique_terms res = 1 \/
     exists (line : Z * count_t) (p : pair_t),
       line ∈ three_lines /\ p ∈ line.2 /\ lb_total_unique_terms res = p.1 + 1) /\
    ((forall line : Z * count_t, line ∈ three_lines -> line.2 = []) ->
     lb_total_unique_terms res = 1).
Proof.
  apply (create_libsvm_postings_unique_terms "data"%string "rcv1"%string
           three_lines).
  reflexivity.
Defined.

(** ** What count and compress never do *)

(** X19: whatever the record, sorted or not, [count] of a key is 0 or the
    weight of a pair that the record holds under that key: it never gives
    the weight of another key. *)
Theorem count_sound (r : postings_data) (k : Z) :
  count r k = 0%float \/ (k, count r k) ∈ _counts r.
Proof.
  unfold count.
  destruct (_ =? _)%nat; [left; reflexivity |].
  destruct (_counts r !! lower_bound (_counts r) 0 (length (_counts r)) k)
    as [q |] eqn:E; [| left; reflexivity].
  destruct (Z.eqb_spec q.1 k) as [Eq | _]; cbn [negb]; [| left; reflexivity].
  right. apply list_elem_of_lookup. eexists. rewrite E, <- Eq.
  destruct q; reflexivity.
Qed.

(** On counts that are not sorted the search may miss a key that is
    there. *)
Example count_misses_in_unsorted :
  count {| _p_id := 7; _counts := [(3, 1%float); (2, 2%float); (1, 4%float)] |} 3
  = 0%float.
Proof. reflexivity. Qed.

Lemma compress_loop_keeps (input : list postings_data) :
  forall (last : Z) (out : list postings_data),
    out ++ input `sublist_of` compress_loop input last out /\
    (Forall (fun r : postings_data => r ∈ out \/ r ∈ input \/ _counts r = [])
            (compress_loop input last out)).
Proof.
  induction input as [| r input IH]; intros last out.
  - cbn [compress_loop]. rewrite app_nil_r. split; [reflexivity |].
    apply Forall_forall. intros x Hx. left. exact Hx.
  - cbn [compress_loop].
    destruct (IH (primary_key r) ((out ++ gap_fill last (primary_key r)) ++ [r]))
      as [Hsub Hall].
    split.
    + etransitivity; [| exact Hsub].
      rewrite <- !app_assoc. apply sublist_app; [reflexivity |].
      apply sublist_inserts_l. reflexivity.
    + eapply Forall_impl; [exact Hall |]. cbn beta.
      intros x [Hx | [Hx | Hx]].
      * apply elem_of_app in Hx as [Hx | Hx].
        -- apply elem_of_app in Hx as [Hx | Hx]; [left; exact Hx |].
           right. right. unfold gap_fill in Hx.
           apply list_elem_of_fmap in Hx as (d & -> & _). reflexivity.
        -- apply list_elem_of_singleton in Hx as ->.
           right. left. apply list_elem_of_here.
      * right. left. apply list_elem_of_further. exact Hx.
      * right. right. exact Hx.
Qed.

(** X20: [compress] writes every record of its input, as it is and in the
    order of the input, whatever the primary keys are; every other record
    it writes is a placeholder with no pairs. *)
Theorem compress_keeps_records (input : list postings_data) (num_docs : Z) :
  input `sublist_of` compress input num_docs /\
  Forall (fun r : postings_data => r ∈ input \/ _counts r = [])
         (compress input num_docs).
Proof.
  unfold compress. destruct (compress_loop_keeps input 0 []) as [Hsub Hall].
  split; [exact Hsub |].
  eapply Forall_impl; [exact Hall |]. cbn beta.
  intros x [Hx | Hx]; [apply elem_of_nil in Hx; destruct Hx | exact Hx].
Qed.
